(** * TitanKeys dictionary tools: normalisation, n-gram extraction, merging

    A shallow embedding of the Python tools under [tools/dictionaries]
    ([extract_ngrams.py], [merge_dictionaries.py], [download_corpora.py])
    and the properties their specification states about them.

    Python values are modelled as follows.
    - A [str] is the list of its Unicode code points ([N]).
    - An [int] is a [Z] (Python integers are unbounded).
    - A [float] is an IEEE 754 binary64 value, [spec_float] at precision 53.
    - A JSON dictionary entry is a record of its two optional keys
      ['w'] (a string) and ['f'] (an integer).
    - A [dict] whose iteration order is observable is an association list in
      insertion order; a [dict] compared as a mapping is a [gmap].
    - Exceptions are the [Raise] results of the [result] monad. *)

From Stdlib Require Import ZArith List Ascii String Floats.SpecFloat.
From stdpp Require Import gmap list strings sorting.

Local Open Scope Z_scope.

(** ** The fragment of the Python runtime the tools rely on *)

Module Py.

Abbreviation char := N (only parsing).
Abbreviation str := (list N) (only parsing).

(** An ASCII literal as a Python string. *)
Fixpoint lit (s : string) : str :=
  match s with
  | EmptyString => []
  | String a s' => Ascii.N_of_ascii a :: lit s'
  end.

(** The interpreter's Unicode database and settings are not part of the
    repository: the tools are modelled over any choice of them. *)
Class Runtime := {
  (** [str.lower] *)
  lower : str → str;
  (** [str.isspace] on one character: what [strip] and [split] remove *)
  isspace : char → bool;
  (** alphanumeric characters: with ['_'], the class [\w] of [re] *)
  isalnum : char → bool;
  (** value of a Unicode decimal digit *)
  decimal : char → option N;
  (** [sys.get_int_max_str_digits()], [0] for no limit *)
  int_max_str_digits : nat
}.

(** *** Exceptions *)

Inductive exn := KeyError | IndexError | ValueError | OverflowError.

Inductive result (A : Type) :=
| Ok (a : A)
| Raise (e : exn).
Arguments Ok {A} a.
Arguments Raise {A} e.

Global Instance result_ret : MRet result := λ A, Ok.
Global Instance result_bind : MBind result := λ A B k m,
  match m with Ok a => k a | Raise e => Raise e end.

(** Run [k] on the elements in order, stopping at the first exception. *)
Fixpoint for_each {A B} (k : A → result B) (l : list A) : result (list B) :=
  match l with
  | [] => Ok []
  | x :: l' => y ← k x; ys ← for_each k l'; Ok (y :: ys)
  end.

(** Truth value of a string: non-empty. *)
Definition truthy (s : str) : bool :=
  match s with [] => false | _ => true end.

(** *** String methods *)

Fixpoint lstrip_by (p : char → bool) (s : str) : str :=
  match s with
  | c :: s' => if p c then lstrip_by p s' else s
  | [] => []
  end.

Definition strip_by (p : char → bool) (s : str) : str :=
  rev (lstrip_by p (rev (lstrip_by p s))).

(** [s.replace(old, new)] for one-character [old] and [new]. *)
Definition replace (old new : char) (s : str) : str :=
  (λ c, if (c =? old)%N then new else c) <$> s.

(** [s.startswith(prefix)] *)
Fixpoint startswith (prefix s : str) : bool :=
  match prefix, s with
  | [], _ => true
  | p :: prefix', c :: s' => (p =? c)%N && startswith prefix' s'
  | _ :: _, [] => false
  end.

(** The maximal non-empty runs of characters that are not separators:
    [cur] is the run being read, last character first. *)
Fixpoint runs (sep : char → bool) (cur : str) (s : str) : list str :=
  match s with
  | [] => if truthy cur then [rev cur] else []
  | c :: s' =>
      if sep c
      then (if truthy cur then rev cur :: runs sep [] s' else runs sep [] s')
      else runs sep (c :: cur) s'
  end.

(** [s.split(sep)] for a one-character [sep]: empty fields are kept. *)
Fixpoint split_on (sep : char) (cur : str) (s : str) : list str :=
  match s with
  | [] => [rev cur]
  | c :: s' =>
      if (c =? sep)%N then rev cur :: split_on sep [] s'
      else split_on sep (c :: cur) s'
  end.

(** [sep.join(parts)] *)
Fixpoint join (sep : str) (parts : list str) : str :=
  match parts with
  | [] => []
  | [p] => p
  | p :: ps => p ++ sep ++ join sep ps
  end.

(** [parts[:-1]] and [parts[-1]] *)
Definition init (parts : list str) : list str :=
  take (length parts - 1) parts.

Section WithRuntime.
Context {R : Runtime}.

(** [s.strip()] *)
Definition strip (s : str) : str := strip_by isspace s.

(** [s.split()]: fields separated by runs of whitespace *)
Definition split (s : str) : list str := runs isspace [] s.

(** [\w] *)
Definition isword (c : char) : bool := isalnum c || (c =? 95)%N.

(** [re.findall(r'\b\w+\b', text)]: a match starts at a word boundary,
    takes the longest run of word characters and ends at the boundary
    after it, so the matches are the maximal runs of word characters. *)
Definition findall_words (text : str) : list str :=
  runs (λ c, negb (isword c)) [] text.

(** *** [int(s)] in base 10 *)

(** Non-ASCII whitespace and decimal digits are first mapped to their
    ASCII counterparts, any other non-ASCII character to ['?']. *)
Definition int_ascii (c : char) : char :=
  if (c <? 127)%N then c
  else if isspace c then 32%N
  else match decimal c with Some d => (48 + d)%N | None => 63%N end.

Definition c_isspace (c : char) : bool :=
  ((9 <=? c) && (c <=? 13) || (c =? 32))%N.

Definition c_isdigit (c : char) : bool := ((48 <=? c) && (c <=? 57))%N.

(** Digits with single underscores between them; [prev] is the character
    read last, [acc] the digits so far. [None] is a syntax error. *)
Fixpoint scan_digits (prev : char) (acc : list Z) (s : str)
  : option (list Z * str) :=
  let finish rest :=
    if (prev =? 95)%N then None
    else match acc with [] => None | _ => Some (acc, rest) end in
  match s with
  | [] => finish []
  | c :: s' =>
      if c_isdigit c then scan_digits c (acc ++ [Z.of_N c - 48]) s'
      else if (c =? 95)%N
           then (if (prev =? 95)%N then None else scan_digits c acc s')
           else finish s
  end.

Definition digits_value (ds : list Z) : Z :=
  foldl (λ v d, 10 * v + d) 0 ds.

Definition over_digit_limit (ds : list Z) : bool :=
  match int_max_str_digits with
  | O => false
  | limit => bool_decide (limit < length ds)%nat
  end.

(** [int(s)]: [None] stands for [ValueError]. *)
Definition int (s : str) : option Z :=
  let a := lstrip_by c_isspace (int_ascii <$> s) in
  let '(negative, a) :=
    match a with
    | 43%N :: r => (false, r)
    | 45%N :: r => (true, r)
    | _ => (false, a)
    end in
  match a with
  | 95%N :: _ => None
  | _ =>
      match scan_digits 0%N [] a with
      | Some (ds, rest) =>
          if forallb c_isspace rest && negb (over_digit_limit ds)
          then Some (if negative then - digits_value ds else digits_value ds)
          else None
      | None => None
      end
  end.
End WithRuntime.

(** *** Floats *)

Abbreviation float := spec_float (only parsing).

Definition fmul : float → float → float := SFmul 53 1024.
Definition fadd : float → float → float := SFadd 53 1024.
Definition fdiv : float → float → float := SFdiv 53 1024.

(** The float nearest to an integer (ties to even), infinite when the
    integer is out of range. *)
Definition nearest (z : Z) : float := binary_normalize 53 1024 z 0 false.

Definition is_finite (x : float) : bool :=
  match x with S754_zero _ | S754_finite _ _ _ => true | _ => false end.

(** [float(z)], as done implicitly when an [int] meets a [float] *)
Definition float_of_int (z : Z) : result float :=
  let x := nearest z in
  if is_finite x then Ok x else Raise OverflowError.

(** [int(x)]: truncation towards zero *)
Definition int_of_float (x : float) : result Z :=
  match x with
  | S754_zero _ => Ok 0
  | S754_finite s m e =>
      let v := match e with
               | Z0 => Z.pos m
               | Z.pos p => Z.pos m * 2 ^ Z.pos p
               | Z.neg p => Z.pos m / 2 ^ Z.pos p
               end in
      Ok (if s then - v else v)
  | S754_infinity _ => Raise OverflowError
  | S754_nan => Raise ValueError
  end.

(** The literals [0.6], [0.4] and [1.0]: the floats nearest to 6/10 and
    4/10, which correctly rounded division computes. *)
Definition f0_6 : float := Eval vm_compute in fdiv (nearest 6) (nearest 10).
Definition f0_4 : float := Eval vm_compute in fdiv (nearest 4) (nearest 10).
Definition f1_0 : float := Eval vm_compute in nearest 1.

(** [sum] over floats, starting from the integer [0]: items are added
    from left to right. *)
Definition fsum (xs : list float) : float :=
  foldl fadd (S754_zero false) xs.

(** Interpreters from 3.12 on add the floats after the first with
    Neumaier's compensation: [c] collects the rounding errors and is
    added at the end when it is finite and not zero. *)
Fixpoint compensated (total c : float) (xs : list float) : float :=
  match xs with
  | [] =>
      match c with
      | S754_finite _ _ _ => fadd total c
      | _ => total
      end
  | x :: xs' =>
      let t := fadd total x in
      let err := if SFleb (SFabs x) (SFabs total)
                 then fadd (SFsub 53 1024 total t) x
                 else fadd (SFsub 53 1024 x t) total in
      compensated t (fadd c err) xs'
  end.

Definition fsum_compensated (xs : list float) : float :=
  match xs with
  | [] => S754_zero false
  | x :: xs' => compensated (fadd (S754_zero false) x) (S754_zero false) xs'
  end.

(** *** Basic Latin and Latin-1

    The runtime restricted to code points below U+0100; beyond them
    [lower] leaves characters alone and the classes are empty. It agrees
    with CPython on strings made of such code points. *)

Definition in_range (lo hi c : N) : bool := ((lo <=? c) && (c <=? hi))%N.

Definition latin1_lower_char (c : char) : char :=
  if in_range 65 90 c then (c + 32)%N
  else if in_range 192 222 c && negb (c =? 215)%N then (c + 32)%N
  else c.

Definition latin1_isspace (c : char) : bool :=
  in_range 9 13 c || in_range 28 32 c || (c =? 133)%N || (c =? 160)%N.

Definition latin1_isalnum (c : char) : bool :=
  in_range 48 57 c || in_range 65 90 c || in_range 97 122 c
  || (c =? 170)%N || in_range 178 179 c || (c =? 181)%N
  || in_range 185 186 c || in_range 188 190 c
  || in_range 192 214 c || in_range 216 246 c || in_range 248 255 c.

Definition latin1_decimal (c : char) : option N :=
  if in_range 48 57 c then Some (c - 48)%N else None.

Global Instance latin1 : Runtime := {|
  lower := fmap latin1_lower_char;
  isspace := latin1_isspace;
  isalnum := latin1_isalnum;
  decimal := latin1_decimal;
  int_max_str_digits := 4300
|}.

End Py.

Import Py.

(** ** [extract_ngrams.py] *)

Module ExtractNgrams.
Section WithRuntime.
Context {R : Runtime}.

(** Characters kept by [re.sub(r'[^a-z]', '', word)] *)
Definition is_az (c : char) : bool := ((97 <=? c) && (c <=? 122))%N.

Definition normalize_word (word : str) : str :=
  let word := strip (lower word) in
  let word := replace 224 97 word in   (* à → a *)
  let word := replace 232 101 word in  (* è → e *)
  let word := replace 233 101 word in  (* é → e *)
  let word := replace 236 105 word in  (* ì → i *)
  let word := replace 242 111 word in  (* ò → o *)
  let word := replace 243 111 word in  (* ó → o *)
  let word := replace 249 117 word in  (* ù → u *)
  let word := replace 192 97 word in   (* À → a *)
  let word := replace 200 101 word in  (* È → e *)
  let word := replace 201 101 word in  (* É → e *)
  let word := replace 204 105 word in  (* Ì → i *)
  let word := replace 210 111 word in  (* Ò → o *)
  let word := replace 211 111 word in  (* Ó → o *)
  let word := replace 217 117 word in  (* Ù → u *)
  filter (λ c, is_az c = true) word.

Definition extract_words (text : str) : list str :=
  let words := findall_words text in
  let normalized := normalize_word <$> filter (λ w, truthy w = true) words in
  filter (λ w, (1 < length w)%nat) normalized.

(** [bigrams[word1][word2] += 1] on nested [defaultdict]s *)
Definition bump (word2 : str) (m : gmap str Z) : gmap str Z :=
  <[word2 := default 0 (m !! word2) + 1]> m.

Definition bump2 (word1 word2 : str) (bigrams : gmap str (gmap str Z))
  : gmap str (gmap str Z) :=
  <[word1 := bump word2 (default ∅ (bigrams !! word1))]> bigrams.

Definition bump3 (word1 word2 word3 : str)
    (trigrams : gmap str (gmap str (gmap str Z)))
  : gmap str (gmap str (gmap str Z)) :=
  <[word1 := bump2 word2 word3 (default ∅ (trigrams !! word1))]> trigrams.

(** Body of [for i in range(len(words) - 1)] *)
Definition bigram_step (words : list str)
    (bigrams : gmap str (gmap str Z)) (i : nat) : gmap str (gmap str Z) :=
  match words !! i, words !! (i + 1)%nat with
  | Some word1, Some word2 =>
      if truthy word1 && truthy word2 then bump2 word1 word2 bigrams
      else bigrams
  | _, _ => bigrams
  end.

(** Body of [for i in range(len(words) - 2)] *)
Definition trigram_step (words : list str)
    (trigrams : gmap str (gmap str (gmap str Z))) (i : nat)
  : gmap str (gmap str (gmap str Z)) :=
  match words !! i, words !! (i + 1)%nat, words !! (i + 2)%nat with
  | Some word1, Some word2, Some word3 =>
      if truthy word1 && truthy word2 && truthy word3
      then bump3 word1 word2 word3 trigrams
      else trigrams
  | _, _, _ => trigrams
  end.

(** Body of [for line in f] *)
Definition count_line
    (tables : gmap str (gmap str Z) * gmap str (gmap str (gmap str Z)))
    (line : str)
  : gmap str (gmap str Z) * gmap str (gmap str (gmap str Z)) :=
  let words := extract_words line in
  (foldl (bigram_step words) tables.1 (seq 0 (length words - 1)),
   foldl (trigram_step words) tables.2 (seq 0 (length words - 2))).

(** [{word2: freq for word2, freq in word2_map.items() if freq >= min_freq}],
    kept only when not empty *)
Definition filter_counts (min_freq : Z) (word2_map : gmap str Z)
  : option (gmap str Z) :=
  let filtered_map := filter (λ kv, min_freq ≤ kv.2) word2_map in
  if decide (filtered_map = ∅) then None else Some filtered_map.

Definition filter_bigrams (min_freq : Z) (bigrams : gmap str (gmap str Z))
  : gmap str (gmap str Z) :=
  omap (filter_counts min_freq) bigrams.

Definition filter_trigrams (min_freq : Z)
    (trigrams : gmap str (gmap str (gmap str Z)))
  : gmap str (gmap str (gmap str Z)) :=
  omap (λ word2_map,
          let word2_filtered := filter_bigrams min_freq word2_map in
          if decide (word2_filtered = ∅) then None else Some word2_filtered)
       trigrams.

(** [extract_ngrams], on the lines of the input file *)
Definition extract_ngrams (lines : list str) (min_freq : Z)
  : gmap str (gmap str Z) * gmap str (gmap str (gmap str Z)) :=
  let tables := foldl count_line (∅, ∅) lines in
  if decide (1 < min_freq)
  then (filter_bigrams min_freq tables.1, filter_trigrams min_freq tables.2)
  else tables.
End WithRuntime.
End ExtractNgrams.

(** ** Dictionary entries

    One element of a JSON dictionary list: an object with the keys ['w']
    (the word, a string) and ['f'] (its frequency, an integer). Either key
    can be missing from the document. Elements that are not objects, values
    of other types and further keys are outside the model. *)

Record Entry := { ent_w : option (list N); ent_f : option Z }.

Global Instance Entry_eq_dec : EqDecision Entry.
Proof. solve_decision. Defined.

(** [{"w": word, "f": frequency}] *)
Definition entry (word : list N) (frequency : Z) : Entry :=
  {| ent_w := Some word; ent_f := Some frequency |}.

(** [e.get('w', '')] and [e.get('f', 0)] *)
Definition get_w (e : Entry) : list N := default [] (ent_w e).
Definition get_f (e : Entry) : Z := default 0 (ent_f e).

(** [e['w']] and [e['f']] *)
Definition item_w (e : Entry) : result (list N) :=
  match ent_w e with Some word => Ok word | None => Raise KeyError end.
Definition item_f (e : Entry) : result Z :=
  match ent_f e with Some frequency => Ok frequency | None => Raise KeyError end.

(** Truth value of the object: it has a key. *)
Definition entry_truthy (e : Entry) : bool :=
  bool_decide (is_Some (ent_w e)) || bool_decide (is_Some (ent_f e)).

(** ** [merge_dictionaries.py] *)

Module MergeDictionaries.

(** What a path holds: a JSON list of entries, another JSON document, or
    bytes that are not JSON. *)
Inductive Doc :=
| JsonList (data : list Entry)
| JsonOther
| NotJson.

(** The files, and the paths that cannot be opened for writing. *)
Record FS := { files : gmap string Doc; locked : gset string }.

Definition load_dictionary (fs : FS) (json_file : string) : list Entry :=
  match files fs !! json_file with
  | Some (JsonList data) => data
  | Some JsonOther => []
  | Some NotJson | None => []
  end.

(** [json.dump(merged_entries, f)] under [open(output_file, 'w')];
    [None] when opening fails. Once the file is open the whole list is
    taken to be written: a serialisation or a console that fails half way
    is outside the model. *)
Definition dump (fs : FS) (output_file : string) (merged_entries : list Entry)
  : option FS :=
  if decide (output_file ∈ locked fs) then None
  else Some {| files := <[output_file := JsonList merged_entries]> (files fs);
               locked := locked fs |}.

(** [max(entries, key=key)]: the first of the largest elements *)
Fixpoint max_by (key : Entry → Z) (best : Entry) (entries : list Entry)
  : Entry :=
  match entries with
  | [] => best
  | e :: entries' =>
      max_by key (if decide (key best < key e) then e else best) entries'
  end.

(** [l.sort(key=key, reverse=True)]: stable, largest key first *)
Fixpoint insert_desc (key : Entry → Z) (x : Entry) (l : list Entry)
  : list Entry :=
  match l with
  | [] => [x]
  | y :: l' =>
      if decide (key x < key y) then y :: insert_desc key x l' else x :: l
  end.

Definition sort_desc (key : Entry → Z) (l : list Entry) : list Entry :=
  foldr (insert_desc key) [] l.

Definition merge_max_frequency (entries : list Entry)
  : result (option Entry) :=
  match entries with
  | [] => Ok None
  | e :: entries' =>
      let max_entry := max_by get_f e entries' in
      word ← item_w max_entry;
      frequency ← item_f max_entry;
      Ok (Some (entry word frequency))
  end.

Definition sum_f (entries : list Entry) : Z :=
  foldl (λ total e, total + get_f e) 0 entries.

Definition merge_sum_frequency (entries : list Entry)
  : result (option Entry) :=
  match entries with
  | [] => Ok None
  | e :: _ =>
      let total_freq := sum_f entries in
      word ← item_w e;
      Ok (Some (entry word total_freq))
  end.

Definition merge_avg_frequency (entries : list Entry)
  : result (option Entry) :=
  match entries with
  | [] => Ok None
  | e :: _ =>
      let avg_freq := sum_f entries `div` Z.of_nat (length entries) in
      word ← item_w e;
      Ok (Some (entry word avg_freq))
  end.

(** [[0.6] + [0.4 / (n - 1)] * (n - 1) if n > 1 else [1.0]] *)
Definition default_weights (n : nat) : list spec_float :=
  if decide (1 < n)%nat
  then f0_6 :: replicate (n - 1) (fdiv f0_4 (nearest (Z.of_nat (n - 1))))
  else [f1_0].

Definition merge_weighted_frequency (entries : list Entry)
    (weights : option (list spec_float)) : result (option Entry) :=
  match entries with
  | [] => Ok None
  | e :: _ =>
      let weights :=
        match weights with
        | None => default_weights (length entries)
        | Some ws => ws
        end in
      terms ← for_each (λ ew, x ← float_of_int (get_f ew.1); Ok (fmul x ew.2))
                       (zip entries weights);
      let weighted_sum := fsum terms in
      word ← item_w e;
      frequency ← int_of_float weighted_sum;
      Ok (Some (entry word frequency))
  end.

Definition merge_strategies
  : gmap string (list Entry → result (option Entry)) :=
  {[ "max" := merge_max_frequency;
     "sum" := merge_sum_frequency;
     "avg" := merge_avg_frequency;
     "weighted" := λ entries, merge_weighted_frequency entries None ]}.

Section WithRuntime.
Context {R : Runtime}.

Definition normalize_word (word : list N) : list N :=
  let word := strip (lower word) in
  let word := replace 224 97 word in   (* à → a *)
  let word := replace 232 101 word in  (* è → e *)
  let word := replace 233 101 word in  (* é → e *)
  let word := replace 236 105 word in  (* ì → i *)
  let word := replace 242 111 word in  (* ò → o *)
  let word := replace 243 111 word in  (* ó → o *)
  let word := replace 249 117 word in  (* ù → u *)
  word.

(** [word_groups[normalized].append(entry)] on a [defaultdict(list)]:
    a new key goes last, an old one keeps its place. *)
Fixpoint group_append (normalized : list N) (e : Entry)
    (word_groups : list (list N * list Entry))
  : list (list N * list Entry) :=
  match word_groups with
  | [] => [(normalized, [e])]
  | (key, entries) :: rest =>
      if decide (key = normalized) then (key, entries ++ [e]) :: rest
      else (key, entries) :: group_append normalized e rest
  end.

(** Body of [for entry in all_entries] *)
Definition group_step (word_groups : list (list N * list Entry))
    (e : Entry) : list (list N * list Entry) :=
  let word := get_w e in
  if truthy word then group_append (normalize_word word) e word_groups
  else word_groups.

(** Body of [for normalized, entries in word_groups.items()]: the
    entries it appends to [merged_entries] *)
Definition resolve (merge_func : list Entry → result (option Entry))
    (min_frequency : Z) (entries : list Entry) : result (list Entry) :=
  merged ← (if decide (1 < length entries)%nat then merge_func entries
            else match entries with
                 | e :: _ => Ok (Some e)
                 | [] => Raise IndexError
                 end);
  Ok (match merged with
      | Some m =>
          if entry_truthy m && bool_decide (min_frequency ≤ get_f m)
          then [m] else []
      | None => []
      end).

(** From [all_entries] to the sorted [merged_entries] *)
Definition rank (all_entries : list Entry) (strategy : string)
    (min_frequency : Z) : result (list Entry) :=
  let word_groups := foldl group_step [] all_entries in
  let merge_func :=
    default merge_max_frequency (merge_strategies !! strategy) in
  merged_entries ← for_each (resolve merge_func min_frequency)
                            (word_groups.*2);
  Ok (sort_desc get_f (concat merged_entries)).

(** The result is the returned flag and the files left behind. *)
Definition merge_dictionaries (fs : FS) (input_files : list string)
    (output_file : string) (strategy : string) (min_frequency : Z)
  : result (bool * FS) :=
  let all_entries := input_files ≫= load_dictionary fs in
  match all_entries with
  | [] => Ok (false, fs)
  | _ =>
      merged_entries ← rank all_entries strategy min_frequency;
      match dump fs output_file merged_entries with
      | Some fs' =>
          (* the summary reads entry['w'] and entry['f'] of the top 10 *)
          match for_each (λ e, _ ← item_w e; item_f e)
                         (take 10 merged_entries) with
          | Ok _ => Ok (true, fs')
          | Raise _ => Ok (false, fs')
          end
      | None => Ok (false, fs)
      end
  end.

(** The parsed command line *)
Record Args := {
  inputs : list string;
  output : string;
  strategy : string;
  min_freq : Z
}.

Definition choices : list string := ["max"; "sum"; "avg"; "weighted"].

(** [main]: the exit status and the files left behind. Status 2 is the
    argument parser's error exit. *)
Definition main (fs : FS) (args : Args) : result (Z * FS) :=
  if decide (inputs args = [] ∨ strategy args ∉ choices) then Ok (2, fs)
  else if decide (Forall (λ input_file, is_Some (files fs !! input_file))
                         (inputs args))
  then
    '(success, fs') ← merge_dictionaries fs (inputs args) (output args)
                                         (strategy args) (min_freq args);
    Ok (if success : bool then 0 else 1, fs')
  else Ok (1, fs).
End WithRuntime.
End MergeDictionaries.

(** ** [download_corpora.py] *)

Module DownloadCorpora.
Section WithRuntime.
Context {R : Runtime}.

(** Body of [for line in f] in [convert_opensubtitles_to_json]: the
    entries the line appends *)
Definition opensubtitles_line (line : list N) : list Entry :=
  let line := strip line in
  if truthy line then
    let parts := split line in
    if decide (length parts < 2)%nat then []
    else
      let word := join (lit " ") (init parts) in
      match int (List.last parts []) with
      | Some frequency => [entry word frequency]
      | None => []
      end
  else [].

(** The entries [convert_opensubtitles_to_json] writes for the lines of
    the frequency list *)
Definition convert_opensubtitles_to_json (lines : list (list N))
  : list Entry :=
  lines ≫= opensubtitles_line.

(** Body of the loop in [convert_wikipedia_to_json], after the test of
    the limit *)
Definition wikipedia_line (line : list N) : list Entry :=
  let line := strip line in
  if truthy line then
    let parts := split_on 44 [] line in
    let parts := if decide (length parts < 2)%nat then split line
                 else parts in
    match parts with
    | field0 :: field1 :: _ =>
        let word := strip_by (N.eqb 34) (strip field0) in
        match int (strip_by (N.eqb 34) (strip field1)) with
        | Some frequency => [entry word frequency]
        | None => []
        end
    | _ => []
    end
  else [].

Fixpoint wikipedia_loop (limit : Z) (entries : list Entry)
    (lines : list (list N)) : list Entry :=
  match lines with
  | [] => entries
  | line :: lines' =>
      if decide (limit ≤ Z.of_nat (length entries)) then entries
      else wikipedia_loop limit (entries ++ wikipedia_line line) lines'
  end.

(** The entries [convert_wikipedia_to_json] writes: a first line that
    starts with [word] is a header. *)
Definition convert_wikipedia_to_json (lines : list (list N)) (limit : Z)
  : list Entry :=
  let lines :=
    match lines with
    | first_line :: rest =>
        if startswith (lit "word") (strip first_line) then rest else lines
    | [] => []
    end in
  wikipedia_loop limit [] lines.
End WithRuntime.
End DownloadCorpora.


(** ** Operations and data of the specification *)

Import MergeDictionaries.

(** Element-wise sum of two tables of counts, of two bigram tables and of
    two trigram tables: a key of either table is a key of the sum. *)
Definition sum_counts (a b : gmap (list N) Z) : gmap (list N) Z :=
  union_with (λ x y, Some (x + y)) a b.

Definition sum_bigrams (a b : gmap (list N) (gmap (list N) Z))
  : gmap (list N) (gmap (list N) Z) :=
  union_with (λ x y, Some (sum_counts x y)) a b.

Definition sum_trigrams (a b : gmap (list N) (gmap (list N) (gmap (list N) Z)))
  : gmap (list N) (gmap (list N) (gmap (list N) Z)) :=
  union_with (λ x y, Some (sum_bigrams x y)) a b.

(** The tables of the scenario ["the cat sat the cat ran"] *)
Definition scenario_bigrams : gmap (list N) (gmap (list N) Z) :=
  {[ lit "the" := {[ lit "cat" := 2 ]};
     lit "cat" := {[ lit "sat" := 1; lit "ran" := 1 ]};
     lit "sat" := {[ lit "the" := 1 ]} ]}.

Definition scenario_trigrams
  : gmap (list N) (gmap (list N) (gmap (list N) Z)) :=
  {[ lit "the" := {[ lit "cat" := {[ lit "sat" := 1; lit "ran" := 1 ]} ]};
     lit "cat" := {[ lit "sat" := {[ lit "the" := 1 ]} ]};
     lit "sat" := {[ lit "the" := {[ lit "cat" := 1 ]} ]} ]}.

(** The accent table: accented character and its base letter *)
Definition accent_table : list (N * N) :=
  [ (224, 97); (232, 101); (233, 101); (236, 105);
    (242, 111); (243, 111); (249, 117);
    (192, 97); (200, 101); (201, 101); (204, 105);
    (210, 111); (211, 111); (217, 117) ]%N.

(** An entry with its frequency made explicit: [0] when the key is missing *)
Definition with_f (e : Entry) : Entry :=
  {| ent_w := ent_w e; ent_f := Some (get_f e) |}.

(** A file system holding the given dictionaries, all paths writable *)
Definition fs_of (docs : list (string * list Entry)) : FS :=
  {| files := list_to_map (prod_map id JsonList <$> docs); locked := ∅ |}.

(** [fs] after [data] has been written to [output_file] *)
Definition written (fs : FS) (output_file : string) (data : list Entry) : FS :=
  {| files := <[output_file := JsonList data]> (files fs);
     locked := locked fs |}.

(** One level of a nested table of counts: the value under a key is
    incremented by [inc], starting from [e] when the key is new; two tables
    are summed with [op] on the values. *)
Definition bump_at {V} (inc : V → V) (e : V) (k : list N)
    (m : gmap (list N) V) : gmap (list N) V :=
  <[k := inc (default e (m !! k))]> m.

Definition sum_at {V} (op : V → V → V) (a b : gmap (list N) V)
  : gmap (list N) V :=
  union_with (λ x y, Some (op x y)) a b.

(** The key under which the grouping step files an entry, if it does *)
Definition group_key `{Runtime} (e : Entry) : option (list N) :=
  if truthy (get_w e) then Some (normalize_word (get_w e)) else None.

(** The entries filed under a key, in input order *)
Definition members `{Runtime} (k : list N) (es : list Entry) : list Entry :=
  filter (λ e, group_key e = Some k) es.

(** The keys of the entries, in order of first appearance *)
Definition key_step `{Runtime} (ks : list (list N)) (e : Entry)
  : list (list N) :=
  match group_key e with
  | Some k => if decide (k ∈ ks) then ks else ks ++ [k]
  | None => ks
  end.

Definition keys_of `{Runtime} (es : list Entry) : list (list N) :=
  foldl key_step [] es.

Global Instance exn_eq_dec : EqDecision exn.
Proof. solve_decision. Defined.

Global Instance result_eq_dec `{EqDecision A} : EqDecision (result A).
Proof. solve_decision. Defined.

Global Instance Doc_eq_dec : EqDecision Doc.
Proof. solve_decision. Defined.

Global Instance FS_eq_dec : EqDecision FS.
Proof. solve_decision. Defined.

(** The stores of the scenarios *)
Definition fs_hello : FS :=
  fs_of [("base.json", [entry (lit "Hello") 10]);
         ("extra.json", [entry (lit "hello") 5])].

Definition fs_rare : FS := fs_of [("rare.json", [entry (lit "a") 0])].

Definition fs_plain : FS := fs_of [("plain.json", [entry (lit "a") 3])].

Definition fs_blank : FS := fs_of [("blank.json", [entry (lit " ") 5])].

Definition fs_bare : FS :=
  fs_of [("bare.json", [{| ent_w := Some (lit "a"); ent_f := None |}])].


(** A character after the rows of a table of replacements, in order *)
Definition fold_accent (table : list (N * N)) (c : N) : N :=
  foldl (λ c' row, if (c' =? row.1)%N then row.2 else c') c table.

(** The fields of a row of the Wikipedia list and a field without the
    spaces and quotes around it *)
Definition wikipedia_fields `{Runtime} (line : list N) : list (list N) :=
  if decide (length (split_on 44 [] line) < 2)%nat then split line
  else split_on 44 [] line.

Definition unquote `{Runtime} (field : list N) : list N :=
  strip_by (N.eqb 34) (strip field).

(** The lines [convert_wikipedia_to_json] reads as rows: every line, but
    for a first line that starts with [word] once the spaces around it are
    gone, which is taken for the header whatever else it holds. *)
Definition wikipedia_rows `{Runtime} (lines : list (list N))
  : list (list N) :=
  match lines with
  | first_line :: rest =>
      if startswith (lit "word") (strip first_line) then rest else lines
  | [] => []
  end.

(** The two halves of the body of the resolution loop: the entry a group
    resolves to, and what the filter appends for it *)
Definition pick (merge_func : list Entry → result (option Entry))
    (entries : list Entry) : result (option Entry) :=
  if decide (1 < length entries)%nat then merge_func entries
  else match entries with
       | e :: _ => Ok (Some e)
       | [] => Raise IndexError
       end.

Definition keep (min_frequency : Z) (merged : option Entry) : list Entry :=
  match merged with
  | Some m =>
      if entry_truthy m && bool_decide (min_frequency ≤ get_f m)
      then [m] else []
  | None => []
  end.

(** Largest frequency first *)
Definition by_frequency (a b : Entry) : Prop := get_f b ≤ get_f a.

(** The frequency the sum strategy leaves in the output for a group: the
    total of the group when it reaches the threshold *)
Definition sum_kept (min_frequency : Z) (entries : list Entry) : list Z :=
  match entries with
  | [] => []
  | _ => if decide (min_frequency ≤ sum_f entries) then [sum_f entries] else []
  end.

(** The count a table holds for a pair and for a triple of words *)
Definition bigram_count (bigrams : gmap (list N) (gmap (list N) Z))
    (word1 word2 : list N) : option Z :=
  bigrams !! word1 ≫= (.!! word2).

Definition trigram_count
    (trigrams : gmap (list N) (gmap (list N) (gmap (list N) Z)))
    (word1 word2 word3 : list N) : option Z :=
  word2_map ← trigrams !! word1; word3_map ← word2_map !! word2;
  word3_map !! word3.

(** A table of counts that is not empty and holds counts of at least 1 and
    at least [min_freq]; a bigram level and a trigram level made of such
    tables *)
Definition counts_ok (min_freq : Z) (m : gmap (list N) Z) : Prop :=
  m ≠ ∅ ∧ map_Forall (λ _ c, 1 ≤ c ∧ min_freq ≤ c) m.

Definition bigrams_ok (min_freq : Z) (t : gmap (list N) (gmap (list N) Z))
  : Prop :=
  map_Forall (λ _ m, counts_ok min_freq m) t.

Definition trigrams_ok (min_freq : Z)
    (t : gmap (list N) (gmap (list N) (gmap (list N) Z))) : Prop :=
  map_Forall (λ _ m, m ≠ ∅ ∧ bigrams_ok min_freq m) t.





(** * Properties *)

(** ** N-gram extraction *)

(** C6: extracting from the single line "the cat sat the cat ran" with
    [min_freq = 1] gives exactly the bigram counts the->cat = 2,
    cat->sat = 1, sat->the = 1, cat->ran = 1 and the trigram counts
    the->cat->sat = 1, cat->sat->the = 1, sat->the->cat = 1,
    the->cat->ran = 1. *)
Theorem extract_ngrams_scenario :
  ExtractNgrams.extract_ngrams [lit "the cat sat the cat ran"] 1
  = (scenario_bigrams, scenario_trigrams).
Proof. compute_done. Qed.

(** Counting into the sum of two tables is counting into the second one. *)
Section Accumulate.
Context {V : Type} (op : V → V → V) (inc : V → V) (e : V).
Hypothesis inc_op : ∀ a b, inc (op a b) = op a (inc b).
Hypothesis op_e : ∀ a, op a e = a.

Lemma sum_at_empty (a : gmap (list N) V) : sum_at op a ∅ = a.
Proof. unfold sum_at. apply (right_id _ _). Qed.

Lemma bump_at_sum (k : list N) (a b : gmap (list N) V) :
  bump_at inc e k (sum_at op a b) = sum_at op a (bump_at inc e k b).
Proof.
  apply map_eq; intros i. unfold bump_at, sum_at.
  destruct (decide (i = k)) as [->|Hne].
  - rewrite lookup_insert_eq, !lookup_union_with, lookup_insert_eq.
    destruct (a !! k) as [x|], (b !! k) as [y|]; simpl; try done.
    + by rewrite inc_op.
    + by rewrite <- inc_op, op_e.
  - rewrite lookup_insert_ne by done.
    rewrite !lookup_union_with, lookup_insert_ne by done. reflexivity.
Qed.
End Accumulate.

Section Sharding.
Context {R : Runtime}.
Import ExtractNgrams.

Lemma bump_sum (k : list N) a b : bump k (sum_counts a b) = sum_counts a (bump k b).
Proof. apply (bump_at_sum Z.add (λ x, x + 1) 0); intros; lia. Qed.

Lemma sum_counts_empty a : sum_counts a ∅ = a.
Proof. apply sum_at_empty. Qed.

Lemma bump2_sum (k1 k2 : list N) a b :
  bump2 k1 k2 (sum_bigrams a b) = sum_bigrams a (bump2 k1 k2 b).
Proof.
  apply (bump_at_sum sum_counts (bump k2) ∅).
  - intros. apply bump_sum.
  - apply sum_counts_empty.
Qed.

Lemma sum_bigrams_empty a : sum_bigrams a ∅ = a.
Proof. apply sum_at_empty. Qed.

Lemma bump3_sum (k1 k2 k3 : list N) a b :
  bump3 k1 k2 k3 (sum_trigrams a b) = sum_trigrams a (bump3 k1 k2 k3 b).
Proof.
  apply (bump_at_sum sum_bigrams (bump2 k2 k3) ∅).
  - intros. apply bump2_sum.
  - apply sum_bigrams_empty.
Qed.

Lemma sum_trigrams_empty a : sum_trigrams a ∅ = a.
Proof. apply sum_at_empty. Qed.

Lemma bigram_steps_sum words idxs a b :
  foldl (bigram_step words) (sum_bigrams a b) idxs
  = sum_bigrams a (foldl (bigram_step words) b idxs).
Proof.
  revert b. induction idxs as [|i idxs IH]; intros b; [done|]. simpl.
  rewrite <- IH. f_equal. unfold bigram_step.
  destruct (words !! i), (words !! (i + 1)%nat); try done.
  destruct (_ && _); [apply bump2_sum | done].
Qed.

Lemma trigram_steps_sum words idxs a b :
  foldl (trigram_step words) (sum_trigrams a b) idxs
  = sum_trigrams a (foldl (trigram_step words) b idxs).
Proof.
  revert b. induction idxs as [|i idxs IH]; intros b; [done|]. simpl.
  rewrite <- IH. f_equal. unfold trigram_step.
  destruct (words !! i), (words !! (i + 1)%nat), (words !! (i + 2)%nat);
    try done.
  destruct (_ && _ && _); [apply bump3_sum | done].
Qed.

Lemma count_lines_sum lines a b :
  foldl count_line (sum_bigrams a.1 b.1, sum_trigrams a.2 b.2) lines
  = (sum_bigrams a.1 (foldl count_line b lines).1,
     sum_trigrams a.2 (foldl count_line b lines).2).
Proof.
  revert b. induction lines as [|line lines IH]; intros b; [done|]. simpl.
  rewrite <- (IH (count_line b line)). f_equal. unfold count_line. simpl.
  by rewrite bigram_steps_sum, trigram_steps_sum.
Qed.

(** C7: for a corpus split at a line boundary into two shards, extracting
    with [min_freq = 1] from each shard and summing the two bigram tables
    and the two trigram tables element-wise gives exactly the tables
    extracted from the whole corpus in one pass. *)
Theorem extract_ngrams_shards (shard1 shard2 : list (list N)) :
  extract_ngrams (shard1 ++ shard2) 1
  = (sum_bigrams (extract_ngrams shard1 1).1 (extract_ngrams shard2 1).1,
     sum_trigrams (extract_ngrams shard1 1).2 (extract_ngrams shard2 1).2).
Proof.
  unfold extract_ngrams. rewrite !decide_False by lia.
  rewrite foldl_app.
  rewrite <- (count_lines_sum shard2 (foldl count_line (∅, ∅) shard1) (∅, ∅)).
  simpl. rewrite sum_bigrams_empty, sum_trigrams_empty.
  by destruct (foldl count_line (∅, ∅) shard1).
Qed.
End Sharding.

(** ** Merging: scenarios *)

Lemma item_w_Ok e word : item_w e = Ok word → ent_w e = Some word.
Proof. unfold item_w. destruct (ent_w e); by intros [= ->]. Qed.

(** A run that has loaded entries, ranks them and can open its output file
    writes the ranked list; the flag tells whether the summary of the first
    ten entries found both keys in each of them. *)
Lemma merge_dictionaries_written `{Runtime} fs input_files output_file
    strategy min_frequency merged :
  input_files ≫= load_dictionary fs ≠ [] →
  rank (input_files ≫= load_dictionary fs) strategy min_frequency = Ok merged →
  output_file ∉ locked fs →
  merge_dictionaries fs input_files output_file strategy min_frequency
  = Ok (match for_each (λ e, _ ← item_w e; item_f e) (take 10 merged) with
        | Ok _ => true
        | Raise _ => false
        end, written fs output_file merged).
Proof.
  intros Hne Hrank Hout. unfold merge_dictionaries.
  destruct (input_files ≫= load_dictionary fs) as [|e es] eqn:Hall; [done|].
  rewrite Hrank. cbn [mbind result_bind]. unfold dump.
  rewrite decide_False by done. fold (written fs output_file merged).
  by destruct (for_each _ _).
Qed.

(** C8: merging the stores [{w:"Hello", f:10}] and [{w:"hello", f:5}] under
    the weighted strategy with [min_freq = 1] writes exactly one entry,
    {w:"Hello", f:8}: the two members weigh 0.6 and 0.4, the weighted sum
    is 8.0 and its truncation is the frequency. In every group of several
    members the first weighs 0.6 and the others share 0.4 evenly, and the
    merged entry has the casing of the first member. *)
Theorem merge_weighted_scenario (fs : FS) (base extra out : string) :
  files fs !! base = Some (JsonList [entry (lit "Hello") 10]) →
  files fs !! extra = Some (JsonList [entry (lit "hello") 5]) →
  out ∉ locked fs →
  merge_dictionaries fs [base; extra] out "weighted" 1
  = Ok (true, written fs out [entry (lit "Hello") 8])
  ∧ default_weights 2 = [f0_6; f0_4]
  ∧ fsum [fmul (nearest 10) f0_6; fmul (nearest 5) f0_4] = nearest 8
  ∧ int_of_float (nearest 8) = Ok 8
  ∧ (∀ n, (1 < n)%nat →
       default_weights n
       = f0_6 :: replicate (n - 1) (fdiv f0_4 (nearest (Z.of_nat (n - 1)))))
  ∧ (∀ first others merged,
       merge_weighted_frequency (first :: others) None = Ok (Some merged) →
       ent_w merged = ent_w first).
Proof.
  intros Hbase Hextra Hout.
  split; [|split_and!; [by vm_compute..| |]]; cycle 1.
  { intros n Hn. unfold default_weights. by rewrite decide_True. }
  { intros first others merged. cbn.
    destruct (for_each _ _); [|done]. cbn.
    destruct (item_w first) as [word|] eqn:Hw; [|done]. cbn.
    destruct (int_of_float _); [|done]. cbn. intros [= <-].
    by apply item_w_Ok in Hw. }
  assert ([base; extra] ≫= load_dictionary fs
          = [entry (lit "Hello") 10; entry (lit "hello") 5]) as Hall.
  { cbn. unfold load_dictionary. by rewrite Hbase, Hextra. }
  rewrite (merge_dictionaries_written fs _ out "weighted" 1
             [entry (lit "Hello") 8]); rewrite ?Hall.
  - reflexivity.
  - done.
  - compute_done.
  - done.
Qed.

(** The compensated sum of newer interpreters gives the same 8.0. *)
Lemma weighted_sum_compensated :
  fsum_compensated [fmul (nearest 10) f0_6; fmul (nearest 5) f0_4]
  = fsum [fmul (nearest 10) f0_6; fmul (nearest 5) f0_4].
Proof. by vm_compute. Qed.

Lemma merge_weighted_scenario_witness :
  merge_dictionaries fs_hello ["base.json"; "extra.json"] "merged.json"
                     "weighted" 1
  = Ok (true, written fs_hello "merged.json" [entry (lit "Hello") 8]).
Proof.
  apply (merge_weighted_scenario fs_hello "base.json" "extra.json"
                                 "merged.json").
  - reflexivity.
  - reflexivity.
  - apply not_elem_of_empty.
Defined.

(** ** Merging: the grouping step *)

Section Grouping.
Context {R : Runtime}.

Lemma group_step_key word_groups e :
  group_step word_groups e
  = match group_key e with
    | Some k => group_append k e word_groups
    | None => word_groups
    end.
Proof. unfold group_step, group_key. by destruct (truthy (get_w e)). Qed.

Lemma group_key_truthy e k : group_key e = Some k → truthy (get_w e) = true.
Proof. unfold group_key. by destruct (truthy (get_w e)). Qed.

Lemma members_snoc k es e :
  members k (es ++ [e])
  = members k es ++ (if decide (group_key e = Some k) then [e] else []).
Proof.
  unfold members. by rewrite filter_app.
Qed.

Lemma keys_of_snoc es e : keys_of (es ++ [e]) = key_step (keys_of es) e.
Proof. unfold keys_of. by rewrite foldl_app. Qed.

Lemma key_step_incl ks e k : k ∈ ks → k ∈ key_step ks e.
Proof.
  intros Hk. unfold key_step. destruct (group_key e) as [k'|]; [|done].
  destruct (decide (k' ∈ ks)); [done|]. set_solver.
Qed.

Lemma key_step_own ks e k : group_key e = Some k → k ∈ key_step ks e.
Proof.
  intros Hk. unfold key_step. rewrite Hk.
  destruct (decide (k ∈ ks)); [done|]. set_solver.
Qed.

Lemma keys_of_complete es e k :
  e ∈ es → group_key e = Some k → k ∈ keys_of es.
Proof.
  induction es as [|e' es IH] using rev_ind; [by intros ?%elem_of_nil|].
  rewrite keys_of_snoc, elem_of_app, list_elem_of_singleton.
  intros [He| ->] Hk.
  - apply key_step_incl. by apply IH.
  - by apply key_step_own.
Qed.

Lemma keys_of_NoDup es : NoDup (keys_of es).
Proof.
  induction es as [|e es IH] using rev_ind; [constructor|].
  rewrite keys_of_snoc. unfold key_step.
  destruct (group_key e) as [k|]; [|done].
  destruct (decide (k ∈ keys_of es)); [done|].
  apply NoDup_app. split_and!; [done| |apply NoDup_singleton].
  intros k' Hk' ->%list_elem_of_singleton. done.
Qed.

Lemma members_nil k es : k ∉ keys_of es → members k es = [].
Proof.
  intros Hk. unfold members.
  induction es as [|e es IH] using rev_ind; [done|].
  rewrite filter_app, filter_cons, filter_nil.
  rewrite keys_of_snoc in Hk.
  rewrite IH by (intros ?; by apply Hk, key_step_incl).
  destruct (decide _) as [Hke|]; [|done].
  destruct Hk. by apply key_step_own.
Qed.

(** Appending to groups listed by distinct keys *)
Lemma group_append_map (M : list N → list Entry) ks k e :
  NoDup ks →
  group_append k e ((λ k', (k', M k')) <$> ks)
  = ((λ k', (k', M k' ++ if decide (k' = k) then [e] else [])) <$> ks)
    ++ (if decide (k ∈ ks) then [] else [(k, [e])]).
Proof.
  induction 1 as [|k0 ks Hk0 Hnd IH]; [done|]. cbn [fmap list_fmap group_append].
  destruct (decide (k0 = k)) as [->|Hne].
  - rewrite decide_True by set_solver. rewrite app_nil_r. f_equal.
    apply list_fmap_ext. intros i k' Hk'.
    rewrite decide_False, app_nil_r; [done|].
    intros ->. apply Hk0. by eapply list_elem_of_lookup_2.
  - rewrite app_nil_r, IH. cbn. f_equal. f_equal.
    destruct (decide (k ∈ ks)) as [Hin|Hin].
    + by rewrite decide_True by (by right).
    + rewrite decide_False; [done|].
      intros [?|?]%elem_of_cons; congruence.
Qed.

(** The groups are the members of each key, keys in order of first
    appearance. *)
Lemma groups_spec es :
  foldl group_step [] es = (λ k, (k, members k es)) <$> keys_of es.
Proof.
  induction es as [|e es IH] using rev_ind; [done|].
  rewrite foldl_app. cbn [foldl]. rewrite IH, group_step_key, keys_of_snoc.
  unfold key_step. destruct (group_key e) as [k|] eqn:Hk.
  - rewrite group_append_map by apply keys_of_NoDup.
    destruct (decide (k ∈ keys_of es)) as [Hin|Hin].
    + rewrite app_nil_r. apply list_fmap_ext. intros i k' _.
      rewrite members_snoc, Hk. repeat f_equal.
      destruct (decide (k' = k)), (decide (Some k = Some k')); congruence.
    + rewrite fmap_app. cbn. f_equal.
      * apply list_fmap_ext. intros i k' _.
        rewrite members_snoc, Hk. repeat f_equal.
        destruct (decide (k' = k)), (decide (Some k = Some k')); congruence.
      * rewrite members_snoc, members_nil, decide_True by done. done.
  - apply list_fmap_ext. intros i k' _.
    by rewrite members_snoc, Hk, decide_False, app_nil_r.
Qed.

Lemma members_truthy k es e : e ∈ members k es → truthy (get_w e) = true.
Proof.
  unfold members. rewrite list_elem_of_filter.
  intros [Hk _]. by eapply group_key_truthy.
Qed.
End Grouping.

(** ** Merging: resolution of the groups *)

Lemma for_each_ext {A B} (f g : A → result B) l :
  (∀ x, x ∈ l → f x = g x) → for_each f l = for_each g l.
Proof.
  induction l as [|x l IH]; intros Hfg; [done|]. cbn [for_each].
  rewrite Hfg by left. rewrite IH; [done|]. intros y Hy. apply Hfg. by right.
Qed.

Lemma for_each_fmap {A B C} (f : B → result C) (h : A → B) l :
  for_each f (h <$> l) = for_each (λ x, f (h x)) l.
Proof. induction l as [|x l IH]; [done|]. cbn. by rewrite IH. Qed.

Lemma sum_f_acc a l : foldl (λ total e, total + get_f e) a l = a + sum_f l.
Proof.
  unfold sum_f. revert a. induction l as [|e l IH]; intros a; cbn; [lia|].
  rewrite (IH (a + get_f e)), (IH (0 + get_f e)). lia.
Qed.



Lemma max_by_ge key best l :
  key best ≤ key (max_by key best l)
  ∧ ∀ x, x ∈ l → key x ≤ key (max_by key best l).
Proof.
  revert best. induction l as [|e l IH]; intros best; cbn.
  - split; [lia|]. by intros x ?%elem_of_nil.
  - destruct (IH (if decide (key best < key e) then e else best)) as [H1 H2].
    split.
    + destruct (decide (key best < key e)); lia.
    + intros x [->|Hx]%elem_of_cons; [|by apply H2].
      destruct (decide (key best < key e)); lia.
Qed.


Lemma max_by_elem key best l : max_by key best l ∈ best :: l.
Proof.
  revert best. induction l as [|e l IH]; intros best; cbn; [by left|].
  specialize (IH (if decide (key best < key e) then e else best)).
  apply elem_of_cons in IH as [->|Hin]; [|by do 2 right].
  destruct (decide (key best < key e)); [by right; left|by left].
Qed.



Section Resolution.
Context {R : Runtime}.

Lemma rank_spec es s m :
  rank es s m
  = merged ← for_each
      (λ k, resolve (default merge_max_frequency (merge_strategies !! s)) m
                    (members k es))
      (keys_of es);
    Ok (sort_desc get_f (concat merged)).
Proof.
  unfold rank. rewrite groups_spec, <- list_fmap_compose.
  by rewrite for_each_fmap.
Qed.




End Resolution.




(** ** Merging: failure and configuration *)

(** C1, as the code has it: a run that loads no entry at all returns
    failure and leaves the files alone; a run that has loaded entries of
    which none remains after grouping and filtering is not a failure: it
    writes the empty list to its output file and returns success. *)
Theorem merge_empty_input `{Runtime} (fs : FS) (input_files : list string)
    (output_file strategy : string) (min_frequency : Z) :
  (input_files ≫= load_dictionary fs = [] →
   merge_dictionaries fs input_files output_file strategy min_frequency
   = Ok (false, fs))
  ∧ (input_files ≫= load_dictionary fs ≠ [] →
     rank (input_files ≫= load_dictionary fs) strategy min_frequency = Ok [] →
     output_file ∉ locked fs →
     merge_dictionaries fs input_files output_file strategy min_frequency
     = Ok (true, written fs output_file [])).
Proof.
  split.
  - intros Hall. unfold merge_dictionaries. by rewrite Hall.
  - intros Hall Hrank Hout.
    by rewrite (merge_dictionaries_written fs _ _ _ _ [] Hall Hrank Hout).
Qed.

Lemma merge_empty_input_witness :
  merge_dictionaries fs_rare ["missing.json"] "out.json" "max" 1
  = Ok (false, fs_rare)
  ∧ merge_dictionaries fs_rare ["rare.json"] "out.json" "max" 1
    = Ok (true, written fs_rare "out.json" []).
Proof.
  split.
  - apply (proj1 (merge_empty_input fs_rare ["missing.json"] "out.json"
                                    "max" 1)).
    reflexivity.
  - apply (proj2 (merge_empty_input fs_rare ["rare.json"] "out.json"
                                    "max" 1)).
    + vm_compute. discriminate.
    + vm_compute. reflexivity.
    + apply not_elem_of_empty.
Defined.

(** C1 fails when the only entry is below the threshold: no merged entry
    remains, and the run writes an empty list and returns success. *)
Lemma merge_empty_result_counterexample :
  rank (["rare.json"] ≫= load_dictionary fs_rare) "max" 1 = Ok []
  ∧ merge_dictionaries fs_rare ["rare.json"] "out.json" "max" 1
    = Ok (true, written fs_rare "out.json" []).
Proof. compute_done. Qed.

Lemma merge_strategies_unknown (s : string) :
  s ∉ choices → merge_strategies !! s = None.
Proof.
  unfold choices. rewrite !not_elem_of_cons. intros (?&?&?&?&_).
  unfold merge_strategies.
  rewrite !lookup_insert_ne by done. by rewrite lookup_singleton_ne.
Qed.

Lemma merge_strategies_max :
  merge_strategies !! "max" = Some merge_max_frequency.
Proof. reflexivity. Qed.

Lemma merge_strategies_sum :
  merge_strategies !! "sum" = Some merge_sum_frequency.
Proof. reflexivity. Qed.

Lemma merge_strategies_avg :
  merge_strategies !! "avg" = Some merge_avg_frequency.
Proof. reflexivity. Qed.

Lemma merge_strategies_weighted :
  merge_strategies !! "weighted"
  = Some (λ entries, merge_weighted_frequency entries None).
Proof. reflexivity. Qed.

(** C3, as the code has it: the command line rejects a strategy that is
    not one of max, sum, avg and weighted before any file is read or
    written, with the argument parser's exit status; [merge_dictionaries]
    itself does not reject it: called with such a strategy it runs as under
    max. *)
Theorem unknown_strategy `{Runtime} (s : string) :
  s ∉ choices →
  (∀ fs args, strategy args = s → main fs args = Ok (2, fs))
  ∧ (∀ fs input_files output_file min_frequency,
       merge_dictionaries fs input_files output_file s min_frequency
       = merge_dictionaries fs input_files output_file "max" min_frequency).
Proof.
  intros Hs. split.
  - intros fs args <-. unfold main. rewrite decide_True; [done|by right].
  - intros fs input_files output_file min_frequency.
    unfold merge_dictionaries, rank.
    by rewrite merge_strategies_unknown, merge_strategies_max.
Qed.

Lemma unknown_strategy_witness :
  main fs_plain {| inputs := ["plain.json"]; output := "out.json";
                   strategy := "median"; min_freq := 1 |}
  = Ok (2, fs_plain)
  ∧ merge_dictionaries fs_plain ["plain.json"] "out.json" "median" 1
    = merge_dictionaries fs_plain ["plain.json"] "out.json" "max" 1.
Proof.
  assert ("median" ∉ choices) as Hs by compute_done.
  split.
  - by apply (proj1 (unknown_strategy "median" Hs)).
  - apply (proj2 (unknown_strategy "median" Hs)).
Defined.

(** C3 fails on [merge_dictionaries]: with the strategy "median" it groups,
    resolves and writes its output. *)
Lemma unknown_strategy_counterexample :
  merge_dictionaries fs_plain ["plain.json"] "out.json" "median" 1
  = Ok (true, written fs_plain "out.json" [entry (lit "a") 3]).
Proof. compute_done. Qed.

(** ** Merging: what reaches the output *)

Lemma insert_desc_elem key x y l : x ∈ insert_desc key y l ↔ x = y ∨ x ∈ l.
Proof.
  induction l as [|z l IH]; cbn.
  - rewrite list_elem_of_singleton, elem_of_nil. tauto.
  - destruct (decide (key y < key z)).
    + rewrite !elem_of_cons, IH. tauto.
    + by rewrite elem_of_cons.
Qed.

Lemma sort_desc_elem key x l : x ∈ sort_desc key l ↔ x ∈ l.
Proof.
  unfold sort_desc. induction l as [|y l IH]; [done|]. cbn.
  by rewrite insert_desc_elem, elem_of_cons, IH.
Qed.

Lemma elem_of_concat {A} (x : A) (ls : list (list A)) :
  x ∈ concat ls ↔ ∃ l, x ∈ l ∧ l ∈ ls.
Proof.
  induction ls as [|l0 ls IH]; cbn.
  - rewrite elem_of_nil. split; [done|]. by intros (l & _ & ?%elem_of_nil).
  - rewrite elem_of_app, IH. split.
    + intros [Hx|(l & Hx & Hl)]; [exists l0|exists l]; split; try done;
        [by left|by right].
    + intros (l & Hx & [->|Hl]%elem_of_cons); [by left|right; by exists l].
Qed.

Lemma for_each_Ok {A B} (f : A → result B) l ys y :
  for_each f l = Ok ys → y ∈ ys → ∃ x, x ∈ l ∧ f x = Ok y.
Proof.
  revert ys. induction l as [|x l IH]; intros ys; cbn.
  - intros [= <-]. by intros ?%elem_of_nil.
  - destruct (f x) as [y0|] eqn:Hfx; [|done]. cbn.
    destruct (for_each f l) as [ys0|] eqn:Hl; [|done]. cbn.
    intros [= <-] [->|Hy]%elem_of_cons.
    + exists x. split; [by left|done].
    + destruct (IH ys0 eq_refl Hy) as (x' & ? & ?).
      exists x'. split; [by right|done].
Qed.

Lemma strategy_cases (s : string) :
  let merge_func := default merge_max_frequency (merge_strategies !! s) in
  merge_func = merge_max_frequency ∨ merge_func = merge_sum_frequency
  ∨ merge_func = merge_avg_frequency
  ∨ merge_func = (λ entries, merge_weighted_frequency entries None).
Proof.
  unfold merge_strategies.
  destruct (decide (s = "max")) as [->|]; [rewrite lookup_insert_eq; tauto|].
  rewrite lookup_insert_ne by done.
  destruct (decide (s = "sum")) as [->|]; [rewrite lookup_insert_eq; tauto|].
  rewrite lookup_insert_ne by done.
  destruct (decide (s = "avg")) as [->|]; [rewrite lookup_insert_eq; tauto|].
  rewrite lookup_insert_ne by done.
  destruct (decide (s = "weighted")) as [->|].
  - rewrite lookup_singleton_eq. tauto.
  - rewrite lookup_singleton_ne by done. tauto.
Qed.

(** The word of a merged entry is the word of a member of its group. *)
Lemma merged_word (s : string) g e :
  default merge_max_frequency (merge_strategies !! s) g = Ok (Some e) →
  ∃ e', e' ∈ g ∧ ent_w e = ent_w e'.
Proof.
  destruct (strategy_cases s) as [-> | [-> | [-> | ->]]];
    (destruct g as [|e0 l]; [done|]); cbn.
  - destruct (item_w (max_by get_f e0 l)) as [word|] eqn:Hw; [|done]. cbn.
    destruct (item_f (max_by get_f e0 l)); [|done]. cbn. intros [= <-].
    exists (max_by get_f e0 l). split; [apply max_by_elem|].
    by apply item_w_Ok in Hw.
  - destruct (item_w e0) as [word|] eqn:Hw; [|done]. cbn. intros [= <-].
    exists e0. split; [by left|]. by apply item_w_Ok in Hw.
  - destruct (item_w e0) as [word|] eqn:Hw; [|done]. cbn. intros [= <-].
    exists e0. split; [by left|]. by apply item_w_Ok in Hw.
  - destruct (for_each _ _); [|done]. cbn.
    destruct (item_w e0) as [word|] eqn:Hw; [|done]. cbn.
    destruct (int_of_float _); [|done]. cbn. intros [= <-].
    exists e0. split; [by left|]. by apply item_w_Ok in Hw.
Qed.

Lemma resolve_elem merge_func m g out e :
  resolve merge_func m g = Ok out → e ∈ out →
  e ∈ g ∨ merge_func g = Ok (Some e).
Proof.
  unfold resolve. destruct (decide (1 < length g)%nat).
  - destruct (merge_func g) as [[merged|]|]; cbn; [| |done].
    + destruct (_ && _); intros [= <-].
      * intros ->%list_elem_of_singleton. by right.
      * by intros ?%elem_of_nil.
    + intros [= <-]. by intros ?%elem_of_nil.
  - destruct g as [|e0 l]; [done|]. cbn.
    destruct (_ && _); intros [= <-].
    + intros ->%list_elem_of_singleton. left. by left.
    + by intros ?%elem_of_nil.
Qed.

(** C9, as the code has it: an entry whose word is missing or is the empty
    string is dropped by the grouping step: it is in no group and its word
    is the word of no output entry. The test is made on the word before it
    is normalised, so an entry whose non-empty word has an empty key (a
    word of spaces) is not dropped: every entry with a non-empty word is a
    member of the group of its key. *)
Theorem empty_word_dropped `{Runtime} (all_entries : list Entry) :
  foldl group_step [] all_entries
  = foldl group_step [] (filter (λ e, truthy (get_w e) = true) all_entries)
  ∧ (∀ key entries e,
       (key, entries) ∈ foldl group_step [] all_entries → e ∈ entries →
       truthy (get_w e) = true)
  ∧ (∀ e,
       e ∈ all_entries → truthy (get_w e) = true →
       ∃ entries,
         (normalize_word (get_w e), entries) ∈ foldl group_step [] all_entries
         ∧ e ∈ entries)
  ∧ (∀ strategy min_frequency merged_entries e,
       rank all_entries strategy min_frequency = Ok merged_entries →
       e ∈ merged_entries → truthy (get_w e) = true).
Proof.
  split_and!.
  - generalize (@nil (list N * list Entry)).
    induction all_entries as [|e es IH]; intros word_groups; [done|].
    rewrite filter_cons. cbn [foldl]. destruct (decide _) as [He|He].
    + cbn [foldl]. apply IH.
    + rewrite <- IH. f_equal. unfold group_step.
      by destruct (truthy (get_w e)).
  - intros key entries e. rewrite groups_spec.
    intros (k & [= -> ->] & _)%list_elem_of_fmap. apply members_truthy.
  - intros e He Hword. rewrite groups_spec.
    assert (group_key e = Some (normalize_word (get_w e))) as Hkey.
    { unfold group_key. by rewrite Hword. }
    exists (members (normalize_word (get_w e)) all_entries). split.
    + apply list_elem_of_fmap. exists (normalize_word (get_w e)).
      split; [done|]. by eapply keys_of_complete.
    + unfold members. by apply list_elem_of_filter.
  - intros strategy min_frequency merged_entries e. rewrite rank_spec.
    destruct (for_each _ _) as [merged|] eqn:Hmerged; [|done]. cbn.
    intros [= <-]. rewrite sort_desc_elem.
    intros (out & He & Hout)%elem_of_concat.
    destruct (for_each_Ok _ _ _ _ Hmerged Hout) as (k & _ & Hres).
    destruct (resolve_elem _ _ _ _ _ Hres He) as [Hin|Hmerge].
    + by eapply members_truthy.
    + apply merged_word in Hmerge as (e' & He' & Hw).
      apply members_truthy in He'. unfold get_w in *. by rewrite Hw.
Qed.

Lemma empty_word_dropped_witness :
  truthy (get_w (entry (lit "Hello") 15)) = true.
Proof.
  apply (proj2 (proj2 (proj2 (empty_word_dropped
                                [entry (lit "Hello") 10; entry [] 7;
                                 entry (lit "hello") 5])))
           "sum" 1 [entry (lit "Hello") 15]).
  - vm_compute. reflexivity.
  - apply list_elem_of_here.
Defined.

(** C9 fails on a word of one space: its key is empty, and the entry is
    grouped under that key and written. *)
Lemma blank_word_counterexample :
  MergeDictionaries.normalize_word (lit " ") = []
  ∧ foldl group_step [] [entry (lit " ") 5] = [([], [entry (lit " ") 5])]
  ∧ merge_dictionaries fs_blank ["blank.json"] "out.json" "max" 1
    = Ok (true, written fs_blank "out.json" [entry (lit " ") 5]).
Proof. compute_done. Qed.

(** ** Merging: entries without a frequency *)

Lemma sum_f_cons e l : sum_f (e :: l) = get_f e + sum_f l.
Proof. unfold sum_f at 1. cbn [foldl]. rewrite sum_f_acc. lia. Qed.

Lemma sum_f_with_f l : sum_f (with_f <$> l) = sum_f l.
Proof.
  induction l as [|e l IH]; [done|].
  rewrite fmap_cons, !sum_f_cons, IH. done.
Qed.

Lemma weighted_terms_with_f l (weights : list spec_float) :
  for_each (λ ew, x ← float_of_int (get_f ew.1); Ok (fmul x ew.2))
           (zip (with_f <$> l) weights)
  = for_each (λ ew, x ← float_of_int (get_f ew.1); Ok (fmul x ew.2))
             (zip l weights).
Proof.
  revert weights. induction l as [|e l IH]; intros [|w weights]; try done.
  cbn. by rewrite IH.
Qed.

Lemma merge_sum_with_f g :
  merge_sum_frequency (with_f <$> g) = merge_sum_frequency g.
Proof.
  destruct g as [|e l]; [done|].
  unfold merge_sum_frequency. rewrite fmap_cons, <- fmap_cons.
  by rewrite sum_f_with_f.
Qed.

Lemma merge_avg_with_f g :
  merge_avg_frequency (with_f <$> g) = merge_avg_frequency g.
Proof.
  destruct g as [|e l]; [done|].
  unfold merge_avg_frequency. rewrite fmap_cons, <- fmap_cons.
  by rewrite sum_f_with_f, length_fmap.
Qed.

Lemma merge_weighted_with_f g :
  merge_weighted_frequency (with_f <$> g) None
  = merge_weighted_frequency g None.
Proof.
  destruct g as [|e l]; [done|].
  unfold merge_weighted_frequency. rewrite fmap_cons, <- fmap_cons.
  by rewrite weighted_terms_with_f, length_fmap.
Qed.

Section MissingFrequency.
Context {R : Runtime}.

Lemma group_key_with_f e : group_key (with_f e) = group_key e.
Proof. done. Qed.

Lemma keys_with_f ks es :
  foldl key_step ks (with_f <$> es) = foldl key_step ks es.
Proof. revert ks. induction es as [|e es IH]; intros ks; [done|]. apply IH. Qed.

Lemma members_with_f k es :
  members k (with_f <$> es) = with_f <$> members k es.
Proof.
  unfold members. induction es as [|e es IH]; [done|].
  rewrite fmap_cons, !filter_cons, group_key_with_f, IH.
  by destruct (decide _).
Qed.

Lemma resolve_with_f merge_func m g :
  merge_func = merge_sum_frequency ∨ merge_func = merge_avg_frequency
  ∨ merge_func = (λ entries, merge_weighted_frequency entries None) →
  1 ≤ m →
  resolve merge_func m (with_f <$> g) = resolve merge_func m g.
Proof.
  intros Hf Hm.
  assert (merge_func (with_f <$> g) = merge_func g) as Hsame.
  { destruct Hf as [-> | [-> | ->]];
      [apply merge_sum_with_f|apply merge_avg_with_f
      |apply merge_weighted_with_f]. }
  unfold resolve. rewrite length_fmap, Hsame.
  destruct (decide (1 < length g)%nat); [done|].
  destruct g as [|[word [frequency|]] l]; try done. cbn.
  rewrite (bool_decide_eq_false_2 (m ≤ 0)) by lia.
  by rewrite !andb_false_r.
Qed.

Lemma rank_with_f es (s : string) m :
  s ∈ ["sum"; "avg"; "weighted"] → 1 ≤ m →
  rank (with_f <$> es) s m = rank es s m.
Proof.
  intros Hs Hm. rewrite !rank_spec. unfold keys_of. rewrite keys_with_f.
  f_equal. apply for_each_ext. intros k _.
  rewrite members_with_f. apply resolve_with_f; [|done].
  repeat apply elem_of_cons in Hs as [->|Hs];
    [| | |by apply elem_of_nil in Hs].
  - left. by rewrite merge_strategies_sum.
  - right; left. by rewrite merge_strategies_avg.
  - right; right. by rewrite merge_strategies_weighted.
Qed.

Lemma rank_lone e (s : string) m :
  ent_f e = None → 1 ≤ m → rank [e] s m = Ok [].
Proof.
  intros He Hm. unfold rank. cbn [foldl]. unfold group_step.
  destruct (truthy (get_w e)); [|done]. cbn.
  assert (resolve (default merge_max_frequency (merge_strategies !! s)) m [e]
          = Ok []) as ->; [|done].
  unfold resolve. cbn [length]. rewrite decide_False by lia. cbn.
  unfold get_f. rewrite He. cbn.
  rewrite (bool_decide_eq_false_2 (m ≤ 0)) by lia.
  by rewrite andb_false_r.
Qed.
End MissingFrequency.

(** C10: an entry without the frequency key counts as an entry of
    frequency 0. The sum, avg and weighted resolutions of a group do not
    change when the missing frequencies are written as 0; the filter keeps
    a lone entry without a frequency exactly when [min_freq <= 0]; a whole
    merge under these strategies with [min_freq >= 1] does not change when
    the missing frequencies are written as 0; and a lone entry without a
    frequency is dropped for [min_freq >= 1]: the run raises no error and
    writes a list without it. *)
Theorem missing_frequency_is_zero `{Runtime} :
  (∀ entries,
     merge_sum_frequency (with_f <$> entries) = merge_sum_frequency entries
     ∧ merge_avg_frequency (with_f <$> entries) = merge_avg_frequency entries
     ∧ merge_weighted_frequency (with_f <$> entries) None
       = merge_weighted_frequency entries None)
  ∧ (∀ merge_func m word,
       resolve merge_func m [{| ent_w := Some word; ent_f := None |}]
       = Ok (if bool_decide (m ≤ 0)
             then [{| ent_w := Some word; ent_f := None |}] else []))
  ∧ (∀ all_entries (s : string) m,
       s ∈ ["sum"; "avg"; "weighted"] → 1 ≤ m →
       rank (with_f <$> all_entries) s m = rank all_entries s m)
  ∧ (∀ fs d out (s : string) m e,
       files fs !! d = Some (JsonList [e]) → ent_f e = None →
       out ∉ locked fs → 1 ≤ m →
       rank [e] s m = Ok []
       ∧ merge_dictionaries fs [d] out s m = Ok (true, written fs out [])).
Proof.
  split_and!.
  - intros entries.
    by rewrite merge_sum_with_f, merge_avg_with_f, merge_weighted_with_f.
  - done.
  - intros. by apply rank_with_f.
  - intros fs d out s m e Hd He Hout Hm.
    assert ([d] ≫= load_dictionary fs = [e]) as Hall.
    { cbn. unfold load_dictionary. by rewrite Hd. }
    split; [by apply rank_lone|].
    rewrite (merge_dictionaries_written fs [d] out s m []);
      rewrite ?Hall; [done|done|by apply rank_lone|done].
Qed.

Lemma missing_frequency_is_zero_witness :
  rank (with_f <$> [{| ent_w := Some (lit "A"); ent_f := None |};
                    entry (lit "a") 4]) "avg" 1
  = rank [{| ent_w := Some (lit "A"); ent_f := None |}; entry (lit "a") 4]
         "avg" 1
  ∧ merge_dictionaries fs_bare ["bare.json"] "out.json" "weighted" 1
    = Ok (true, written fs_bare "out.json" []).
Proof.
  split.
  - apply (proj1 (proj2 (proj2 missing_frequency_is_zero))); [|lia].
    compute_done.
  - apply (proj2 (proj2 (proj2 missing_frequency_is_zero))
             fs_bare "bare.json" "out.json" "weighted" 1
             {| ent_w := Some (lit "a"); ent_f := None |}).
    + reflexivity.
    + reflexivity.
    + apply not_elem_of_empty.
    + lia.
Defined.

(** ** Normalisation *)

Lemma replace_fmap old new (f : N → N) (s : list N) :
  replace old new (f <$> s)
  = (λ c, if (f c =? old)%N then new else f c) <$> s.
Proof. unfold replace. by rewrite <- list_fmap_compose. Qed.

(** C4, as the code has it. The normaliser of the extractor lower-cases
    and trims the word, folds the accent table and then keeps the letters
    a-z only: its result holds no other character, for every input. The
    normaliser of the merge lower-cases, trims and folds the lower-case
    rows of the table and keeps every other character. Both fold each row
    of the table, upper-case rows included, and map the empty string to
    the empty string. *)
Theorem normalize_word_letters :
  (∀ (R : Runtime) (word : list N),
     Forall (λ c, ExtractNgrams.is_az c = true)
            (ExtractNgrams.normalize_word word)
     ∧ ExtractNgrams.normalize_word word
       = filter (λ c, ExtractNgrams.is_az c = true)
                (fold_accent accent_table <$> strip (lower word))
     ∧ MergeDictionaries.normalize_word word
       = fold_accent (take 7 accent_table) <$> strip (lower word))
  ∧ Forall (λ row, ExtractNgrams.normalize_word [row.1] = [row.2]
                   ∧ MergeDictionaries.normalize_word [row.1] = [row.2])
           accent_table
  ∧ ExtractNgrams.normalize_word [] = []
  ∧ MergeDictionaries.normalize_word [] = [].
Proof.
  split; [|compute_done].
  intros R word. split_and!.
  - unfold ExtractNgrams.normalize_word. apply Forall_forall.
    by intros c [Hc _]%list_elem_of_filter.
  - unfold ExtractNgrams.normalize_word. f_equal.
    rewrite <- (list_fmap_id (strip (lower word))) at 1.
    by rewrite !replace_fmap.
  - unfold MergeDictionaries.normalize_word.
    rewrite <- (list_fmap_id (strip (lower word))) at 1.
    by rewrite !replace_fmap.
Qed.

(** C4 fails on the normaliser of the merge: the apostrophe of "Don't"
    stays in the key. *)
Lemma normalize_word_counterexample :
  MergeDictionaries.normalize_word (lit "Don't") = lit "don't"
  ∧ ¬ Forall (λ c, ExtractNgrams.is_az c = true)
             (MergeDictionaries.normalize_word (lit "Don't")).
Proof. compute_done. Qed.

(** ** Loading records *)

Lemma snoc_parts (parts fields : list (list N)) (field : list N) :
  parts = fields ++ [field] →
  init parts = fields ∧ List.last parts [] = field.
Proof.
  intros ->. unfold init. rewrite length_app. cbn [length].
  replace (length fields + 1 - 1)%nat with (length fields) by lia.
  by rewrite take_app_length, last_last.
Qed.

Section Records.
Context {R : Runtime}.
Import DownloadCorpora.

Lemma split_nil : split [] = [].
Proof. done. Qed.

Lemma opensubtitles_line_accepts line e :
  opensubtitles_line line = [e]
  ↔ ∃ fields field frequency,
      split (strip line) = fields ++ [field] ∧ fields ≠ []
      ∧ int field = Some frequency
      ∧ e = entry (join (lit " ") fields) frequency.
Proof.
  unfold opensubtitles_line. split.
  - destruct (truthy (strip line)); [|done].
    destruct (decide _) as [|Hlen]; [done|].
    destruct (split (strip line)) as [|p ps] using rev_ind; [cbn in Hlen; lia|].
    destruct (snoc_parts (ps ++ [p]) ps p eq_refl) as [-> ->].
    destruct (int p) as [frequency|] eqn:Hint; [|done]. intros [= <-].
    exists ps, p, frequency. split_and!; try done.
    intros ->. cbn in Hlen. lia.
  - intros (fields & field & frequency & Hsplit & Hfields & Hint & ->).
    destruct (strip line) as [|c l] eqn:Hstrip.
    { rewrite split_nil in Hsplit. by destruct fields. }
    cbn [truthy]. rewrite Hsplit.
    destruct (snoc_parts _ fields field eq_refl) as [-> ->].
    rewrite decide_False, Hint; [done|].
    rewrite length_app. destruct fields; [done|]. cbn. lia.
Qed.

Lemma opensubtitles_line_rejects line :
  opensubtitles_line line = []
  ∨ ∃ e, opensubtitles_line line = [e].
Proof.
  unfold opensubtitles_line. destruct (truthy _); [|by left].
  destruct (decide _); [by left|]. destruct (int _); [right; eauto|by left].
Qed.

Lemma opensubtitles_skip lines1 bad lines2 :
  opensubtitles_line bad = [] →
  convert_opensubtitles_to_json (lines1 ++ bad :: lines2)
  = convert_opensubtitles_to_json lines1
    ++ convert_opensubtitles_to_json lines2.
Proof.
  intros Hbad. unfold convert_opensubtitles_to_json.
  rewrite bind_app, bind_cons, Hbad. done.
Qed.

Lemma wikipedia_line_accepts line e :
  wikipedia_line line = [e]
  ↔ ∃ field0 field1 rest frequency,
      wikipedia_fields (strip line) = field0 :: field1 :: rest
      ∧ strip line ≠ []
      ∧ int (unquote field1) = Some frequency
      ∧ e = entry (unquote field0) frequency.
Proof.
  unfold wikipedia_line, wikipedia_fields, unquote. split.
  - destruct (strip line) as [|c l] eqn:Hstrip; [done|]. cbn [truthy].
    destruct (if decide _ then _ else _) as [|field0 [|field1 rest]];
      [done|done|].
    destruct (int _) as [frequency|] eqn:Hint; [|done]. intros [= <-].
    by exists field0, field1, rest, frequency.
  - intros (field0 & field1 & rest & frequency & -> & Hline & -> & ->).
    by destruct (strip line).
Qed.

Lemma wikipedia_skip limit entries lines1 bad lines2 :
  wikipedia_line bad = [] →
  wikipedia_loop limit entries (lines1 ++ bad :: lines2)
  = wikipedia_loop limit entries (lines1 ++ lines2).
Proof.
  intros Hbad. revert entries.
  induction lines1 as [|line lines1 IH]; intros entries; cbn.
  - rewrite Hbad, app_nil_r. destruct (decide _) as [Hfull|]; [|done].
    destruct lines2 as [|line lines2]; [done|]. cbn.
    by rewrite decide_True.
  - destruct (decide _); [done|]. apply IH.
Qed.

Lemma wikipedia_line_short line :
  wikipedia_line line = [] ∨ ∃ e, wikipedia_line line = [e].
Proof.
  unfold wikipedia_line. destruct (truthy _); [|by left].
  destruct (if decide _ then _ else _) as [|field0 [|field1 rest]];
    [by left..|].
  destruct (int _); [right; eauto|by left].
Qed.

Lemma wikipedia_loop_take limit entries rows :
  wikipedia_loop limit entries rows
  = entries ++ take (Z.to_nat limit - length entries)
                    (rows ≫= wikipedia_line).
Proof.
  revert entries. induction rows as [|line rows IH]; intros entries.
  { cbn. by rewrite take_nil, app_nil_r. }
  cbn [wikipedia_loop]. destruct (decide _) as [Hfull|Hroom].
  - replace (Z.to_nat limit - length entries)%nat with 0%nat by lia.
    by rewrite app_nil_r.
  - rewrite IH, bind_cons.
    destruct (wikipedia_line_short line) as [-> | [e ->]].
    + by rewrite !app_nil_r.
    + rewrite length_app, <- app_assoc. cbn [length app].
      replace (Z.to_nat limit - length entries)%nat
        with (S (Z.to_nat limit - (length entries + 1)))%nat by lia.
      done.
Qed.

(** The converter as a whole: the entries of the rows, in order, up to the
    limit. *)
Lemma convert_wikipedia_rows lines limit :
  convert_wikipedia_to_json lines limit
  = take (Z.to_nat limit) (wikipedia_rows lines ≫= wikipedia_line).
Proof.
  unfold convert_wikipedia_to_json. fold (wikipedia_rows lines).
  rewrite wikipedia_loop_take. cbn [length app]. by rewrite Nat.sub_0_r.
Qed.

Lemma wikipedia_rows_cons first_line rest :
  wikipedia_rows (first_line :: rest)
  = if startswith (lit "word") (strip first_line) then rest
    else first_line :: rest.
Proof. reflexivity. Qed.

Lemma convert_wikipedia_skip first_line lines1 bad lines2 limit :
  wikipedia_line bad = [] →
  convert_wikipedia_to_json (first_line :: lines1 ++ bad :: lines2) limit
  = convert_wikipedia_to_json (first_line :: lines1 ++ lines2) limit.
Proof.
  intros Hbad. rewrite !convert_wikipedia_rows, !wikipedia_rows_cons.
  f_equal. destruct (startswith _ _);
    rewrite ?bind_cons, !bind_app, bind_cons, Hbad; done.
Qed.

Lemma convert_wikipedia_first_skip bad rest limit :
  wikipedia_line bad = [] →
  convert_wikipedia_to_json (bad :: rest) limit
  = take (Z.to_nat limit) (rest ≫= wikipedia_line).
Proof.
  intros Hbad. rewrite convert_wikipedia_rows, wikipedia_rows_cons.
  destruct (startswith _ _); [done|]. by rewrite bind_cons, Hbad.
Qed.
End Records.

(** C5, as the code has it. A line of the OpenSubtitles list is accepted
    if and only if it has at least two fields separated by whitespace and
    its last field parses as an integer, of either sign; a row of the
    Wikipedia list if and only if it has at least two fields and its second
    field, without the spaces and quotes around it, parses as an integer.
    An accepted record gives one entry; any other record is skipped, and
    the OpenSubtitles converter loads the other lines as if it were not
    there. The Wikipedia converter first drops the first line of its file
    when that line, trimmed, starts with [word], whether or not it is a
    record; what it loads is the entries of the remaining rows, in order,
    up to its limit. So a skipped row that is not the first line leaves
    the load as if it were not there, and a skipped first line leaves the
    entries of the lines after it, none of them taken for a header.
    [load_dictionary] returns a stored list as it is. *)
Theorem record_accepted `{Runtime} :
  (∀ line e,
     DownloadCorpora.opensubtitles_line line = [e]
     ↔ ∃ fields field frequency,
         split (strip line) = fields ++ [field] ∧ fields ≠ []
         ∧ int field = Some frequency
         ∧ e = entry (join (lit " ") fields) frequency)
  ∧ (∀ line e,
       DownloadCorpora.wikipedia_line line = [e]
       ↔ ∃ field0 field1 rest frequency,
           wikipedia_fields (strip line) = field0 :: field1 :: rest
           ∧ strip line ≠ []
           ∧ int (unquote field1) = Some frequency
           ∧ e = entry (unquote field0) frequency)
  ∧ (∀ line,
       DownloadCorpora.opensubtitles_line line = []
       ∨ ∃ e, DownloadCorpora.opensubtitles_line line = [e])
  ∧ (∀ lines1 bad lines2,
       DownloadCorpora.opensubtitles_line bad = [] →
       DownloadCorpora.convert_opensubtitles_to_json (lines1 ++ bad :: lines2)
       = DownloadCorpora.convert_opensubtitles_to_json lines1
         ++ DownloadCorpora.convert_opensubtitles_to_json lines2)
  ∧ (∀ limit entries lines1 bad lines2,
       DownloadCorpora.wikipedia_line bad = [] →
       DownloadCorpora.wikipedia_loop limit entries (lines1 ++ bad :: lines2)
       = DownloadCorpora.wikipedia_loop limit entries (lines1 ++ lines2))
  ∧ (∀ fs json_file data,
       files fs !! json_file = Some (JsonList data) →
       load_dictionary fs json_file = data)
  ∧ (∀ lines limit,
       DownloadCorpora.convert_wikipedia_to_json lines limit
       = take (Z.to_nat limit)
              (wikipedia_rows lines ≫= DownloadCorpora.wikipedia_line))
  ∧ wikipedia_rows [] = []
  ∧ (∀ first_line rest,
       wikipedia_rows (first_line :: rest)
       = if startswith (lit "word") (strip first_line) then rest
         else first_line :: rest)
  ∧ (∀ first_line lines1 bad lines2 limit,
       DownloadCorpora.wikipedia_line bad = [] →
       DownloadCorpora.convert_wikipedia_to_json
         (first_line :: lines1 ++ bad :: lines2) limit
       = DownloadCorpora.convert_wikipedia_to_json
           (first_line :: lines1 ++ lines2) limit)
  ∧ (∀ bad rest limit,
       DownloadCorpora.wikipedia_line bad = [] →
       DownloadCorpora.convert_wikipedia_to_json (bad :: rest) limit
       = take (Z.to_nat limit) (rest ≫= DownloadCorpora.wikipedia_line)).
Proof.
  split_and!.
  - apply opensubtitles_line_accepts.
  - apply wikipedia_line_accepts.
  - apply opensubtitles_line_rejects.
  - apply opensubtitles_skip.
  - apply wikipedia_skip.
  - intros fs json_file data Hdata. unfold load_dictionary. by rewrite Hdata.
  - apply convert_wikipedia_rows.
  - reflexivity.
  - apply wikipedia_rows_cons.
  - apply convert_wikipedia_skip.
  - apply convert_wikipedia_first_skip.
Qed.

Lemma record_accepted_witness :
  DownloadCorpora.convert_opensubtitles_to_json
    ([lit "the 120"] ++ lit "of many" :: [lit "new york 7"])
  = DownloadCorpora.convert_opensubtitles_to_json [lit "the 120"]
    ++ DownloadCorpora.convert_opensubtitles_to_json [lit "new york 7"]
  ∧ DownloadCorpora.wikipedia_loop 10 [] ([lit "the,120"] ++ lit "of" :: [])
    = DownloadCorpora.wikipedia_loop 10 [] ([lit "the,120"] ++ [])
  ∧ load_dictionary fs_plain "plain.json" = [entry (lit "a") 3]
  ∧ DownloadCorpora.convert_wikipedia_to_json
      (lit "word,count" :: [lit "the,120"] ++ lit "of" :: [lit "wordy,5"])
      50000
    = DownloadCorpora.convert_wikipedia_to_json
        (lit "word,count" :: [lit "the,120"] ++ [lit "wordy,5"]) 50000
  ∧ DownloadCorpora.convert_wikipedia_to_json
      (lit "of" :: [lit "wordy,5"]) 50000
    = take (Z.to_nat 50000)
           ([lit "wordy,5"] ≫= DownloadCorpora.wikipedia_line).
Proof.
  destruct (@record_accepted latin1)
    as (_ & _ & _ & Hsubtitles & Hloop & Hload & _ & _ & _ & Hrow & Hfirst).
  split_and!.
  - apply Hsubtitles. reflexivity.
  - apply Hloop. reflexivity.
  - apply Hload. reflexivity.
  - apply Hrow. reflexivity.
  - apply Hfirst. reflexivity.
Defined.

(** C5 fails on a negative frequency: it parses as an integer and the
    record is accepted, in both lists. *)
Lemma negative_frequency_counterexample :
  int (lit "-5") = Some (-5)
  ∧ DownloadCorpora.convert_opensubtitles_to_json [lit "word -5"]
    = [entry (lit "word") (-5)]
  ∧ DownloadCorpora.convert_wikipedia_to_json [lit "the,-5"] 50000
    = [entry (lit "the") (-5)].
Proof. compute_done. Qed.

(** The header rule of the Wikipedia converter at work: a first line that
    starts with [word] is dropped though it is a well-formed record, and
    the same line is loaded when it is not the first. *)
Lemma wikipedia_header_rows :
  DownloadCorpora.wikipedia_line (lit "wordy,5") = [entry (lit "wordy") 5]
  ∧ DownloadCorpora.convert_wikipedia_to_json [lit "wordy,5"] 50000 = []
  ∧ DownloadCorpora.convert_wikipedia_to_json [lit "x"; lit "wordy,5"] 50000
    = [entry (lit "wordy") 5].
Proof. compute_done. Qed.

(** * Further properties of the tools *)

(** ** The ranking of the merged entries *)

Lemma resolve_pick_keep merge_func m g :
  resolve merge_func m g = merged ← pick merge_func g; Ok (keep m merged).
Proof. reflexivity. Qed.

Lemma insert_desc_top key x l :
  (∀ y, y ∈ l → key y ≤ key x) → insert_desc key x l = x :: l.
Proof.
  destruct l as [|y l]; [done|]. intros Hle. cbn.
  rewrite decide_False; [done|]. specialize (Hle y ltac:(left)). lia.
Qed.

Lemma insert_desc_sorted key x l :
  StronglySorted (λ a b, key b ≤ key a) l →
  StronglySorted (λ a b, key b ≤ key a) (insert_desc key x l).
Proof.
  induction 1 as [|y l Hl IH Hy]; cbn.
  - repeat constructor.
  - destruct (decide (key x < key y)).
    + constructor; [done|]. apply Forall_forall. intros z Hz.
      apply insert_desc_elem in Hz as [->|Hz]; [lia|].
      rewrite Forall_forall in Hy. by apply Hy.
    + constructor; [by constructor|]. constructor; [lia|].
      eapply Forall_impl; [done|]. cbn. intros z Hz. lia.
Qed.

Lemma sort_desc_sorted key l :
  StronglySorted (λ a b, key b ≤ key a) (sort_desc key l).
Proof.
  unfold sort_desc. induction l as [|x l IH]; [constructor|].
  by apply insert_desc_sorted.
Qed.

Lemma insert_desc_perm key x l : insert_desc key x l ≡ₚ x :: l.
Proof.
  induction l as [|y l IH]; [done|]. cbn.
  destruct (decide _); [|done]. rewrite IH. apply Permutation_swap.
Qed.

Lemma sort_desc_perm key l : sort_desc key l ≡ₚ l.
Proof.
  unfold sort_desc. induction l as [|x l IH]; [done|]. cbn.
  by rewrite insert_desc_perm, IH.
Qed.

Lemma sort_desc_fixed key l :
  StronglySorted (λ a b, key b ≤ key a) l → sort_desc key l = l.
Proof.
  unfold sort_desc. induction 1 as [|x l Hl IH Hx]; [done|]. cbn.
  rewrite IH. apply insert_desc_top. by apply Forall_forall.
Qed.

Lemma insert_desc_filter key (P : Entry → Prop) `{∀ e, Decision (P e)} x l :
  StronglySorted (λ a b, key b ≤ key a) l →
  filter P (insert_desc key x l)
  = if decide (P x) then insert_desc key x (filter P l) else filter P l.
Proof.
  induction 1 as [|y l Hl IH Hy]; cbn [insert_desc].
  - rewrite filter_cons, filter_nil. by destruct (decide (P x)).
  - destruct (decide (key x < key y)) as [Hlt|Hge].
    + rewrite !filter_cons, IH.
      destruct (decide (P y)), (decide (P x)); try done.
      cbn [insert_desc]. by rewrite decide_True.
    + rewrite (filter_cons _ x). destruct (decide (P x)); [|done].
      symmetry. apply insert_desc_top.
      intros z [_ Hz]%list_elem_of_filter.
      apply elem_of_cons in Hz as [->|Hz]; [lia|].
      rewrite Forall_forall in Hy. specialize (Hy z Hz). cbn in Hy. lia.
Qed.

Lemma sort_desc_filter key (P : Entry → Prop) `{∀ e, Decision (P e)} l :
  sort_desc key (filter P l) = filter P (sort_desc key l).
Proof.
  induction l as [|x l IH]; [done|].
  change (sort_desc key (x :: l)) with (insert_desc key x (sort_desc key l)).
  rewrite insert_desc_filter by apply sort_desc_sorted.
  rewrite filter_cons. destruct (decide (P x)); [|done].
  change (sort_desc key (x :: filter P l))
    with (insert_desc key x (sort_desc key (filter P l))).
  by rewrite IH.
Qed.

Lemma concat_filter {A} (P : A → Prop) `{∀ x, Decision (P x)}
    (ls : list (list A)) :
  concat (filter P <$> ls) = filter P (concat ls).
Proof.
  induction ls as [|l ls IH]; [done|]. cbn. by rewrite filter_app, IH.
Qed.

Lemma for_each_map {A B} (f g : A → result B) (h : B → B) l ys :
  (∀ x y, f x = Ok y → g x = Ok (h y)) →
  for_each f l = Ok ys → for_each g l = Ok (h <$> ys).
Proof.
  intros Hfg. revert ys. induction l as [|x l IH]; intros ys; cbn.
  - by intros [= <-].
  - destruct (f x) as [y|] eqn:Hfx; [|done]. cbn.
    destruct (for_each f l) as [ys0|]; [|done]. cbn. intros [= <-].
    by rewrite (Hfg x y Hfx), (IH ys0 eq_refl).
Qed.

Lemma for_each_raise {A B} (f g : A → result B) l e :
  (∀ x y, f x = Ok y → ∃ y', g x = Ok y') →
  (∀ x e', f x = Raise e' → g x = Raise e') →
  for_each f l = Raise e → for_each g l = Raise e.
Proof.
  intros Hok Hraise. induction l as [|x l IH]; cbn; [done|].
  destruct (f x) as [y|e'] eqn:Hfx; cbn.
  - destruct (Hok x y Hfx) as [y' ->]. cbn.
    destruct (for_each f l); [done|]. cbn. intros [= <-].
    by rewrite IH.
  - intros [= <-]. by rewrite (Hraise x e').
Qed.

Lemma keep_elem m merged e :
  e ∈ keep m merged → merged = Some e ∧ m ≤ get_f e.
Proof.
  destruct merged as [x|]; cbn; [|by intros ?%elem_of_nil].
  destruct (entry_truthy x); cbn; [|by intros ?%elem_of_nil].
  case_bool_decide; [|by intros ?%elem_of_nil].
  by intros ->%list_elem_of_singleton.
Qed.

Lemma keep_filter m m' merged :
  m ≤ m' → keep m' merged = filter (λ e, m' ≤ get_f e) (keep m merged).
Proof.
  intros Hm. destruct merged as [x|]; [|done]. unfold keep.
  destruct (entry_truthy x); cbn [andb]; [|done].
  repeat case_bool_decide; try lia; try done.
  - by rewrite filter_cons, filter_nil, decide_True.
  - by rewrite filter_cons, filter_nil, decide_False.
Qed.

Section Ranking.
Context {R : Runtime}.

Lemma rank_sorted_min (all_entries : list Entry)
    (strategy : string) (min_frequency : Z) (merged_entries : list Entry) :
  rank all_entries strategy min_frequency = Ok merged_entries →
  StronglySorted by_frequency merged_entries
  ∧ Forall (λ e, min_frequency ≤ get_f e) merged_entries.
Proof.
  rewrite rank_spec.
  destruct (for_each _ _) as [merged|] eqn:Hmerged; [|done]. cbn.
  intros [= <-]. split; [apply sort_desc_sorted|].
  apply Forall_forall. intros e. rewrite sort_desc_elem.
  intros (out & He & Hout)%elem_of_concat.
  destruct (for_each_Ok _ _ _ _ Hmerged Hout) as (k & _ & Hres).
  rewrite resolve_pick_keep in Hres.
  destruct (pick _ _) as [r|]; [|done]. cbn in Hres.
  injection Hres as <-. by apply keep_elem in He as [_ ?].
Qed.

(** X1: the list a merge ranks is in descending order of frequency, and
    every entry of it has a frequency of at least [min_frequency]. *)
Theorem rank_sorted_above_threshold (all_entries : list Entry)
    (strategy : string) (min_frequency : Z) (merged_entries : list Entry) :
  rank all_entries strategy min_frequency = Ok merged_entries →
  StronglySorted by_frequency merged_entries
  ∧ Forall (λ e, min_frequency ≤ get_f e) merged_entries.
Proof. apply rank_sorted_min. Qed.

(** X2: raising the threshold only filters the ranked list: for a
    threshold [m'] above [m], the list ranked at [m'] is the list ranked at
    [m] without the entries below [m'], in the same order; and a merge that
    raises at one threshold raises at every threshold. *)
Theorem rank_threshold_monotone (all_entries : list Entry) (strategy : string)
    (m m' : Z) :
  m ≤ m' →
  (∀ merged_entries,
     rank all_entries strategy m = Ok merged_entries →
     rank all_entries strategy m'
     = Ok (filter (λ e, m' ≤ get_f e) merged_entries))
  ∧ (∀ e, rank all_entries strategy m = Raise e →
          rank all_entries strategy m' = Raise e).
Proof.
  intros Hm. rewrite !rank_spec.
  destruct (for_each _ _) as [merged|e] eqn:Hmerged; cbn;
    (split; [intros ? [= <-]|intros ? [= <-]]).
  - erewrite (for_each_map _ _ (filter (λ e, m' ≤ get_f e))); [|..|done].
    + cbn. by rewrite concat_filter, sort_desc_filter.
    + intros k out. cbn beta. rewrite !resolve_pick_keep.
      destruct (pick _ _); [|done]. cbn. intros [= <-].
      by rewrite (keep_filter m m').
  - erewrite for_each_raise; [done|..|done].
    + intros k out. cbn beta. rewrite !resolve_pick_keep.
      destruct (pick _ _); [|done]. cbn. eauto.
    + intros k e'. cbn beta. rewrite !resolve_pick_keep.
      by destruct (pick _ _).
Qed.
End Ranking.

Lemma rank_sorted_above_threshold_witness :
  StronglySorted by_frequency [entry (lit "Hello") 15; entry (lit "World") 3]
  ∧ Forall (λ e, 2 ≤ get_f e) [entry (lit "Hello") 15; entry (lit "World") 3].
Proof.
  apply (rank_sorted_above_threshold
           [entry (lit "World") 3; entry (lit "Hello") 10;
            entry (lit "rare") 1; entry (lit "hello") 5] "sum" 2).
  vm_compute. reflexivity.
Defined.

Lemma rank_threshold_monotone_witness :
  rank [entry (lit "World") 3; entry (lit "Hello") 10; entry (lit "hello") 5]
       "sum" 4
  = Ok (filter (λ e, 4 ≤ get_f e)
               [entry (lit "Hello") 15; entry (lit "World") 3]).
Proof.
  apply (rank_threshold_monotone
           [entry (lit "World") 3; entry (lit "Hello") 10;
            entry (lit "hello") 5] "sum" 1 4).
  - lia.
  - vm_compute. reflexivity.
Defined.

(** ** One entry per key *)

Lemma for_each_Forall2 {A B} (f : A → result B) l ys :
  for_each f l = Ok ys → Forall2 (λ x y, f x = Ok y) l ys.
Proof.
  revert ys. induction l as [|x l IH]; intros ys; cbn.
  - intros [= <-]. constructor.
  - destruct (f x) as [y|] eqn:Hfx; [|done]. cbn.
    destruct (for_each f l) as [ys0|]; [|done]. cbn. intros [= <-].
    constructor; [done|by apply IH].
Qed.

Lemma for_each_total {A B} (f : A → result B) l :
  (∀ x, x ∈ l → ∃ y, f x = Ok y) → ∃ ys, for_each f l = Ok ys.
Proof.
  induction l as [|x l IH]; intros Hf; [by eexists|]. cbn.
  destruct (Hf x ltac:(left)) as [y ->].
  destruct IH as [ys ->]; [intros; apply Hf; by right|]. by eexists.
Qed.

Section Keys.
Context {R : Runtime}.

Lemma group_key_word e e' : ent_w e = ent_w e' → group_key e = group_key e'.
Proof. unfold group_key, get_w. by intros ->. Qed.

Lemma group_key_has_word e k : group_key e = Some k → is_Some (ent_w e).
Proof.
  intros Hk%group_key_truthy. unfold get_w in Hk. by destruct (ent_w e).
Qed.

Lemma members_key k es e : e ∈ members k es → group_key e = Some k.
Proof. unfold members. by intros [? _]%list_elem_of_filter. Qed.

Lemma members_incl k es e : e ∈ members k es → e ∈ es.
Proof. unfold members. by intros [_ ?]%list_elem_of_filter. Qed.

Lemma keys_of_sound es k :
  k ∈ keys_of es → ∃ e, e ∈ es ∧ group_key e = Some k.
Proof.
  induction es as [|e es IH] using rev_ind; [by intros ?%elem_of_nil|].
  rewrite keys_of_snoc. unfold key_step.
  destruct (group_key e) as [k'|] eqn:Hk'.
  - destruct (decide (k' ∈ keys_of es)).
    + intros (e' & ? & ?)%IH. exists e'. split; [|done].
      apply elem_of_app. by left.
    + intros [Hin| ->%list_elem_of_singleton]%elem_of_app.
      * destruct (IH Hin) as (e' & ? & ?). exists e'. split; [|done].
        apply elem_of_app. by left.
      * exists e. split; [|done]. apply elem_of_app. right. by left.
  - intros (e' & ? & ?)%IH. exists e'. split; [|done].
    apply elem_of_app. by left.
Qed.

Lemma members_nonempty k es : k ∈ keys_of es → members k es ≠ [].
Proof.
  intros (e & He & Hk)%keys_of_sound Hnil.
  assert (e ∈ members k es) as Hin by (by apply list_elem_of_filter).
  rewrite Hnil in Hin. by apply elem_of_nil in Hin.
Qed.

Lemma pick_key (s : string) k es x :
  pick (default merge_max_frequency (merge_strategies !! s)) (members k es)
  = Ok (Some x) →
  group_key x = Some k.
Proof.
  unfold pick. destruct (decide _).
  - intros (e' & He' & Hw)%merged_word.
    rewrite (group_key_word x e' Hw). by eapply members_key.
  - destruct (members k es) as [|e l] eqn:Hmem; [done|]. intros [= <-].
    apply (members_key k es). rewrite Hmem. by left.
Qed.

Lemma resolved_keys (s : string) m es ks outs :
  Forall2 (λ k out,
             resolve (default merge_max_frequency (merge_strategies !! s)) m
                     (members k es) = Ok out) ks outs →
  group_key <$> concat outs `sublist_of` Some <$> ks.
Proof.
  induction 1 as [|k out ks outs Hres _ IH]; [constructor|]. cbn.
  rewrite resolve_pick_keep in Hres.
  destruct (pick _ _) as [[x|]|] eqn:Hpick; cbn in Hres; [| |done];
    injection Hres as <-; cbn; [|by apply sublist_cons].
  destruct (_ && _); cbn; [|by apply sublist_cons].
  rewrite (pick_key _ _ _ _ Hpick). by apply sublist_skip.
Qed.

Lemma rank_keys (all_entries : list Entry) (strategy : string)
    (min_frequency : Z) (merged_entries : list Entry) :
  rank all_entries strategy min_frequency = Ok merged_entries →
  NoDup (group_key <$> merged_entries)
  ∧ Forall (λ e, ∃ e', e' ∈ all_entries ∧ group_key e = group_key e'
                       ∧ is_Some (group_key e))
           merged_entries.
Proof.
  rewrite rank_spec.
  destruct (for_each _ _) as [merged|] eqn:Hmerged; [|done]. cbn.
  intros [= <-]. apply for_each_Forall2 in Hmerged.
  pose proof (resolved_keys _ _ _ _ _ Hmerged) as Hsub.
  assert (NoDup (group_key <$> concat merged)) as Hnd.
  { eapply sublist_NoDup; [|exact Hsub].
    apply (NoDup_fmap_2 _). apply keys_of_NoDup. }
  split.
  - by rewrite sort_desc_perm.
  - apply Forall_forall. intros e He. rewrite sort_desc_elem in He.
    assert (group_key e ∈ Some <$> keys_of all_entries) as Hin.
    { eapply elem_of_sublist; [|exact Hsub].
      by apply list_elem_of_fmap_2. }
    apply list_elem_of_fmap in Hin as (k & Hk & Hin).
    apply keys_of_sound in Hin as (e' & He' & Hk').
    exists e'. by rewrite Hk, Hk'.
Qed.

(** X3: a merge writes one entry per key: the keys of the ranked entries
    are pairwise distinct, and each is the key of an input entry. *)
Theorem rank_one_entry_per_key (all_entries : list Entry) (strategy : string)
    (min_frequency : Z) (merged_entries : list Entry) :
  rank all_entries strategy min_frequency = Ok merged_entries →
  NoDup (group_key <$> merged_entries)
  ∧ Forall (λ e, ∃ e', e' ∈ all_entries ∧ group_key e = group_key e'
                       ∧ is_Some (group_key e))
           merged_entries.
Proof. apply rank_keys. Qed.
End Keys.

Lemma rank_one_entry_per_key_witness :
  NoDup (group_key <$> [entry (lit "Hello") 15; entry (lit "World") 3]).
Proof.
  apply (rank_one_entry_per_key
           [entry (lit "World") 3; entry (lit "Hello") 10;
            entry (lit "hello") 5] "sum" 1).
  vm_compute. reflexivity.
Defined.

(** ** Merging a merged dictionary again *)

Section Remerge.
Context {R : Runtime}.

Lemma group_append_fresh k e (word_groups : list (list N * list Entry)) :
  k ∉ word_groups.*1 → group_append k e word_groups = word_groups ++ [(k, [e])].
Proof.
  induction word_groups as [|[k' g] rest IH]; [done|]. cbn.
  intros Hk. rewrite not_elem_of_cons in Hk. destruct Hk as [Hne Hk].
  rewrite decide_False by done. by rewrite IH.
Qed.

(** Entries with distinct keys are grouped one by one. *)
Lemma groups_distinct es :
  Forall (λ e, is_Some (group_key e)) es → NoDup (group_key <$> es) →
  (foldl group_step [] es).*2 = (λ e, [e]) <$> es
  ∧ Some <$> (foldl group_step [] es).*1 = group_key <$> es.
Proof.
  induction es as [|e es IH] using rev_ind; [done|].
  rewrite Forall_app, Forall_singleton, fmap_app, NoDup_app.
  intros [Hes [k Hk]] (Hnd & Hfresh & _).
  destruct (IH Hes Hnd) as [IH2 IH1].
  rewrite foldl_app. cbn [foldl]. rewrite group_step_key, Hk.
  rewrite group_append_fresh.
  - rewrite !fmap_app, IH2, IH1. cbn. by rewrite Hk.
  - intros Hin. apply (list_elem_of_fmap_2 Some) in Hin.
    rewrite IH1 in Hin. apply (Hfresh _ Hin). cbn. rewrite Hk. by left.
Qed.

Lemma for_each_singletons merge_func m es :
  Forall (λ e, is_Some (ent_w e) ∧ m ≤ get_f e) es →
  for_each (resolve merge_func m) ((λ e, [e]) <$> es)
  = Ok ((λ e, [e]) <$> es).
Proof.
  induction 1 as [|e es [Hw Hf] _ IH]; [done|]. cbn [fmap list_fmap for_each].
  rewrite IH. unfold resolve. cbn [length]. rewrite decide_False by lia. cbn.
  unfold entry_truthy. rewrite (bool_decide_eq_true_2 _ Hw).
  by rewrite (bool_decide_eq_true_2 _ Hf).
Qed.

Lemma concat_singletons {A} (l : list A) : concat ((λ x, [x]) <$> l) = l.
Proof. induction l as [|x l IH]; [done|]. cbn. by rewrite IH. Qed.

(** A ranked list is ranked to itself, under every strategy and every
    threshold that is not higher. *)
Lemma rank_fixed es (s s' : string) m m' out :
  rank es s m = Ok out → m' ≤ m → rank out s' m' = Ok out.
Proof.
  intros Hrank Hm.
  destruct (rank_sorted_min es s m out Hrank) as [Hsorted Hmin].
  destruct (rank_keys es s m out Hrank) as [Hnd Hkeys'].
  assert (Forall (λ e, is_Some (group_key e)) out) as Hkeys.
  { eapply Forall_impl; [done|]. cbn. by intros e (_ & _ & _ & ?). }
  unfold rank. destruct (groups_distinct out Hkeys Hnd) as [-> _].
  rewrite for_each_singletons.
  - cbn. rewrite concat_singletons. by rewrite sort_desc_fixed.
  - rewrite Forall_forall in Hmin, Hkeys. apply Forall_forall. intros e He.
    split; [|specialize (Hmin e He); lia].
    destruct (Hkeys e He) as [k Hk]. by eapply group_key_has_word.
Qed.
End Remerge.

Lemma merge_dictionaries_true `{Runtime} fs input_files output_file
    (strategy : string) min_frequency fs' :
  merge_dictionaries fs input_files output_file strategy min_frequency
  = Ok (true, fs') →
  ∃ merged,
    rank (input_files ≫= load_dictionary fs) strategy min_frequency = Ok merged
    ∧ (output_file ∉ locked fs)
    ∧ fs' = written fs output_file merged
    ∧ (∃ seen, for_each (λ e, _ ← item_w e; item_f e) (take 10 merged)
               = Ok seen).
Proof.
  unfold merge_dictionaries.
  destruct (input_files ≫= load_dictionary fs) as [|e es]; [done|].
  destruct (rank _ _ _) as [merged|]; [|done]. cbn. unfold dump.
  destruct (decide _); [done|].
  destruct (for_each _ _) as [seen|] eqn:Hseen; [|done]. intros [= <-].
  exists merged. split_and!; try done. by exists seen.
Qed.

Lemma merge_dictionaries_files `{Runtime} fs input_files output_file
    (strategy : string) min_frequency flag fs' :
  merge_dictionaries fs input_files output_file strategy min_frequency
  = Ok (flag, fs') →
  fs' = fs ∨ ∃ merged, fs' = written fs output_file merged.
Proof.
  unfold merge_dictionaries.
  destruct (input_files ≫= load_dictionary fs) as [|e es];
    [intros [= <- <-]; by left|].
  destruct (rank _ _ _) as [merged|]; [|done]. cbn. unfold dump.
  destruct (decide _); [intros [= <- <-]; by left|].
  destruct (for_each _ _); intros [= <- <-]; right; by exists merged.
Qed.

(** X4: a dictionary written by a successful merge is stable: merging
    that file alone into itself, under any strategy and any threshold that
    is not higher, leaves every file as it is; the run succeeds unless the
    dictionary is empty, which counts as no entries loaded. *)
Theorem merge_again_stable `{Runtime} (fs fs' : FS) (input_files : list string)
    (output_file strategy strategy' : string) (m m' : Z) :
  merge_dictionaries fs input_files output_file strategy m = Ok (true, fs') →
  m' ≤ m →
  merge_dictionaries fs' [output_file] output_file strategy' m'
  = Ok (bool_decide (load_dictionary fs' output_file ≠ []), fs').
Proof.
  intros (merged & Hrank & Hout & -> & seen & Hseen)%merge_dictionaries_true Hm.
  assert (load_dictionary (written fs output_file merged) output_file = merged)
    as Hload.
  { unfold load_dictionary, written. cbn. by rewrite lookup_insert_eq. }
  rewrite Hload. destruct merged as [|e merged].
  { unfold merge_dictionaries. cbn [mbind list_bind].
    by rewrite Hload. }
  rewrite (merge_dictionaries_written _ _ _ _ _ (e :: merged)).
  - rewrite Hseen, bool_decide_eq_true_2 by done. f_equal. f_equal.
    unfold written. cbn. by rewrite insert_insert_eq.
  - cbn [mbind list_bind]. by rewrite Hload.
  - cbn [mbind list_bind]. rewrite Hload, app_nil_r.
    by eapply rank_fixed.
  - done.
Qed.

Lemma merge_again_stable_witness :
  merge_dictionaries (written fs_hello "merged.json" [entry (lit "Hello") 8])
                     ["merged.json"] "merged.json" "sum" 1
  = Ok (bool_decide
          (load_dictionary
             (written fs_hello "merged.json" [entry (lit "Hello") 8])
             "merged.json" ≠ []),
        written fs_hello "merged.json" [entry (lit "Hello") 8]).
Proof.
  apply (merge_again_stable fs_hello _ ["base.json"; "extra.json"]
                            "merged.json" "weighted" "sum" 1 1).
  - vm_compute. reflexivity.
  - lia.
Defined.

(** X5: a merge changes no file but its output file, and the command
    line ends with status 0, 1 or 2 and changes no other file either. *)
Theorem merge_touches_output_only `{Runtime} (fs : FS) :
  (∀ input_files output_file (strategy : string) min_frequency flag fs',
     merge_dictionaries fs input_files output_file strategy min_frequency
     = Ok (flag, fs') →
     locked fs' = locked fs
     ∧ ∀ path, path ≠ output_file → files fs' !! path = files fs !! path)
  ∧ (∀ args status fs',
       main fs args = Ok (status, fs') →
       status ∈ [0; 1; 2]
       ∧ locked fs' = locked fs
       ∧ ∀ path, path ≠ output args → files fs' !! path = files fs !! path).
Proof.
  split.
  - intros input_files output_file strategy min_frequency flag fs'.
    intros [-> | [merged ->]]%merge_dictionaries_files; [done|].
    split; [done|]. intros path Hpath. cbn. by rewrite lookup_insert_ne.
  - intros args status fs'. unfold main.
    assert (∀ flag : bool, (if flag then 0 else 1) ∈ [0; 1; 2]) as Hstatus.
    { intros []; [by left|by right; left]. }
    destruct (decide _);
      [intros [= <- <-]; split_and!; [by do 2 right; left|done..]|].
    destruct (decide _);
      [|intros [= <- <-]; split_and!; [by right; left|done..]].
    destruct (merge_dictionaries _ _ _ _ _) as [[flag fs'']|] eqn:Hmerge;
      [|done].
    cbn. intros [= <- <-].
    apply merge_dictionaries_files in Hmerge as [-> | [merged ->]].
    + split_and!; [apply Hstatus|done..].
    + split_and!; [apply Hstatus|done|].
      intros path Hpath. cbn. by rewrite lookup_insert_ne.
Qed.

Lemma merge_touches_output_only_witness :
  locked (written fs_hello "merged.json" [entry (lit "Hello") 8])
  = locked fs_hello
  ∧ ∀ path, path ≠ "merged.json" →
      files (written fs_hello "merged.json" [entry (lit "Hello") 8]) !! path
      = files fs_hello !! path.
Proof.
  apply (proj1 (merge_touches_output_only fs_hello)
           ["base.json"; "extra.json"] "merged.json" "weighted" 1 true).
  vm_compute. reflexivity.
Defined.

(** X6: a store that cannot be read, is not a JSON list or is an empty
    list is skipped by [merge_dictionaries]: the run is the run without
    it. The command line is stricter: with a valid strategy, an input path
    that does not exist ends it with status 1 before anything is merged. *)
Theorem unreadable_store_skipped `{Runtime} (fs : FS) (bad : string) :
  (∀ e data, files fs !! bad ≠ Some (JsonList (e :: data))) →
  (∀ before after output_file (strategy : string) min_frequency,
     merge_dictionaries fs (before ++ bad :: after) output_file strategy
                        min_frequency
     = merge_dictionaries fs (before ++ after) output_file strategy
                          min_frequency)
  ∧ (∀ args, files fs !! bad = None → bad ∈ inputs args →
             strategy args ∈ choices → main fs args = Ok (1, fs)).
Proof.
  intros Hbad.
  assert (load_dictionary fs bad = []) as Hload.
  { unfold load_dictionary.
    destruct (files fs !! bad) as [[[|e data]| |]|] eqn:Hdoc; try done.
    by destruct (Hbad e data). }
  split.
  - intros before after output_file strategy min_frequency.
    unfold merge_dictionaries.
    by rewrite !bind_app, bind_cons, Hload.
  - intros args Hnone Hin Hs. unfold main.
    rewrite decide_False.
    + rewrite decide_False; [done|]. rewrite Forall_forall.
      intros Hall. destruct (Hall bad Hin) as [doc Hdoc]. congruence.
    + intros [Hnil|Hns]; [|done]. rewrite Hnil in Hin.
      by apply elem_of_nil in Hin.
Qed.

Lemma unreadable_store_skipped_witness :
  merge_dictionaries fs_hello (["base.json"] ++ "gone.json" :: ["extra.json"])
                     "merged.json" "weighted" 1
  = merge_dictionaries fs_hello (["base.json"] ++ ["extra.json"])
                       "merged.json" "weighted" 1
  ∧ main fs_hello {| inputs := ["base.json"; "gone.json"];
                     output := "merged.json"; strategy := "weighted";
                     min_freq := 1 |}
    = Ok (1, fs_hello).
Proof.
  assert (∀ e data, files fs_hello !! "gone.json" ≠ Some (JsonList (e :: data)))
    as Hbad by done.
  split.
  - apply (proj1 (unreadable_store_skipped fs_hello "gone.json" Hbad)).
  - apply (proj2 (unreadable_store_skipped fs_hello "gone.json" Hbad)).
    + reflexivity.
    + cbn. by right; left.
    + cbn. by do 3 right; left.
Defined.

(** ** The strategies *)

Lemma max_by_split key best l :
  ∃ l1 l2, best :: l = l1 ++ max_by key best l :: l2
           ∧ (∀ y, y ∈ l1 → key y < key (max_by key best l))
           ∧ (∀ y, y ∈ l2 → key y ≤ key (max_by key best l)).
Proof.
  revert best. induction l as [|e l IH]; intros best.
  { exists [], []. split_and!; [done|by intros ? ?%elem_of_nil..]. }
  cbn [max_by]. destruct (decide (key best < key e)) as [Hlt|Hge].
  - destruct (IH e) as (l1 & l2 & Heq & Hl1 & Hl2).
    exists (best :: l1), l2. split_and!; [by rewrite Heq| |done].
    intros y [->|Hy]%elem_of_cons; [|by apply Hl1].
    destruct (max_by_ge key e l) as [? _]. lia.
  - destruct (IH best) as (l1 & l2 & Heq & Hl1 & Hl2).
    destruct l1 as [|b l1]; cbn in Heq.
    + injection Heq as Hbest Hl. exists [], (e :: l2).
      split_and!; [by rewrite <- Hbest, <- Hl| |].
      * by intros ? ?%elem_of_nil.
      * intros y [->|Hy]%elem_of_cons; [|by apply Hl2].
        rewrite <- Hbest. lia.
    + injection Heq as -> Hl. exists (b :: e :: l1), l2.
      split_and!; [cbn; by do 2 f_equal| |done].
      intros y [->|[->|Hy]%elem_of_cons]%elem_of_cons.
      * apply Hl1. by left.
      * specialize (Hl1 b ltac:(left)). lia.
      * apply Hl1. by right.
Qed.

(** X7: the max strategy resolves a group to its first member of largest
    frequency: the merged entry has the word and the frequency of a member
    before which every member has a smaller frequency and after which none
    has a larger one. *)
Theorem merge_max_first_largest (entries : list Entry) (merged : Entry) :
  merge_max_frequency entries = Ok (Some merged) →
  ∃ before winner after,
    entries = before ++ winner :: after
    ∧ ent_w merged = ent_w winner ∧ ent_f merged = ent_f winner
    ∧ (∀ e, e ∈ before → get_f e < get_f winner)
    ∧ (∀ e, e ∈ after → get_f e ≤ get_f winner).
Proof.
  destruct entries as [|e0 l]; [done|]. cbn.
  destruct (max_by_split get_f e0 l) as (before & after & Heq & Hlt & Hle).
  destruct (item_w _) as [word|] eqn:Hw; [|done]. cbn.
  destruct (item_f _) as [frequency|] eqn:Hf; [|done]. cbn. intros [= <-].
  exists before, (max_by get_f e0 l), after. split_and!; try done.
  - cbn. symmetry. by apply item_w_Ok.
  - cbn. unfold item_f in Hf. by destruct (ent_f _); simplify_eq.
Qed.

Lemma merge_max_first_largest_witness :
  ∃ before winner after,
    [entry (lit "the") 3; entry (lit "The") 9; entry (lit "THE") 9]
    = before ++ winner :: after
    ∧ ent_w (entry (lit "The") 9) = ent_w winner
    ∧ ent_f (entry (lit "The") 9) = ent_f winner
    ∧ (∀ e, e ∈ before → get_f e < get_f winner)
    ∧ (∀ e, e ∈ after → get_f e ≤ get_f winner).
Proof.
  apply (merge_max_first_largest
           [entry (lit "the") 3; entry (lit "The") 9; entry (lit "THE") 9]).
  reflexivity.
Defined.

Lemma sum_f_bounds entries :
  entries ≠ [] →
  ∃ lo hi, lo ∈ entries ∧ hi ∈ entries
           ∧ Z.of_nat (length entries) * get_f lo ≤ sum_f entries
           ∧ sum_f entries ≤ Z.of_nat (length entries) * get_f hi.
Proof.
  induction entries as [|e [|e' l] IH]; [done| |]; intros _.
  - exists e, e. rewrite sum_f_cons. cbn.
    split_and!; [by left|by left|unfold sum_f; cbn; lia..].
  - destruct IH as (lo & hi & Hlo & Hhi & Hlow & Hhigh); [done|].
    rewrite sum_f_cons. remember (e' :: l) as rest.
    cbn [length]. rewrite Nat2Z.inj_succ.
    exists (if decide (get_f e ≤ get_f lo) then e else lo),
           (if decide (get_f hi ≤ get_f e) then e else hi).
    split_and!.
    + destruct (decide _); [by left|by right].
    + destruct (decide _); [by left|by right].
    + destruct (decide _); nia.
    + destruct (decide _); nia.
Qed.

(** X8: the sum strategy gives the total of the frequencies of the group
    and the avg strategy a frequency between the smallest and the largest
    frequency of the group; both take the word of the first member. *)
Theorem merge_sum_avg_frequency (first : Entry) (others : list Entry)
    (merged : Entry) :
  (merge_sum_frequency (first :: others) = Ok (Some merged) →
   ent_w merged = ent_w first
   ∧ get_f merged = get_f first + sum_f others)
  ∧ (merge_avg_frequency (first :: others) = Ok (Some merged) →
     ent_w merged = ent_w first
     ∧ ∃ lo hi, lo ∈ first :: others ∧ hi ∈ first :: others
                ∧ get_f lo ≤ get_f merged ≤ get_f hi).
Proof.
  split; cbn [merge_sum_frequency merge_avg_frequency];
    (destruct (item_w first) as [word|] eqn:Hw; [|done]);
    cbn [mbind result_bind];
    intros [= <-]; (split; [symmetry; by apply item_w_Ok|]).
  - cbn [get_f ent_f entry default]. apply sum_f_cons.
  - destruct (sum_f_bounds (first :: others)) as (lo & hi & ? & ? & ? & ?);
      [done|].
    exists lo, hi. split_and!; try done; cbn [get_f ent_f entry default].
    + apply Z.div_le_lower_bound; [cbn [length]; lia|done].
    + apply Z.div_le_upper_bound; [cbn [length]; lia|done].
Qed.

Lemma merge_sum_avg_frequency_witness :
  get_f (entry (lit "Hello") 15) = get_f (entry (lit "Hello") 10)
                                   + sum_f [entry (lit "hello") 5].
Proof.
  apply (proj1 (merge_sum_avg_frequency
                  (entry (lit "Hello") 10) [entry (lit "hello") 5]
                  (entry (lit "Hello") 15))).
  reflexivity.
Defined.

Lemma strategy_not_weighted (s : string) :
  s ≠ "weighted" →
  let merge_func := default merge_max_frequency (merge_strategies !! s) in
  merge_func = merge_max_frequency ∨ merge_func = merge_sum_frequency
  ∨ merge_func = merge_avg_frequency.
Proof.
  intros Hs. cbn.
  destruct (decide (s = "max")) as [->|]; [by left|].
  destruct (decide (s = "sum")) as [->|]; [by right; left|].
  destruct (decide (s = "avg")) as [->|]; [by right; right|].
  rewrite merge_strategies_unknown; [by left|].
  unfold choices. rewrite !not_elem_of_cons. split_and!; try done.
  apply not_elem_of_nil.
Qed.

Lemma rank_total `{Runtime} (all_entries : list Entry) (s : string)
    (min_frequency : Z) :
  s = "sum" ∨ s = "avg"
  ∨ (s ≠ "weighted" ∧ Forall (λ e, is_Some (ent_f e)) all_entries) →
  ∃ merged_entries, rank all_entries s min_frequency = Ok merged_entries.
Proof.
  intros Hs. rewrite rank_spec.
  destruct (for_each_total
              (λ k, resolve (default merge_max_frequency
                                     (merge_strategies !! s))
                            min_frequency (members k all_entries))
              (keys_of all_entries)) as [merged ->]; [|by eexists].
  intros k Hk%members_nonempty. rewrite resolve_pick_keep. unfold pick.
  destruct (members k all_entries) as [|e l] eqn:Hmem; [done|].
  assert (∀ x, x ∈ e :: l → is_Some (ent_w x)) as Hword.
  { intros x Hx. rewrite <- Hmem in Hx.
    apply members_key in Hx. by eapply group_key_has_word. }
  destruct (decide _); [|by eexists].
  assert (∃ r, merge_sum_frequency (e :: l) = Ok r) as Hsum.
  { cbn. destruct (Hword e ltac:(left)) as [word Hw].
    unfold item_w. rewrite Hw. by eexists. }
  assert (∃ r, merge_avg_frequency (e :: l) = Ok r) as Havg.
  { cbn. destruct (Hword e ltac:(left)) as [word Hw].
    unfold item_w. rewrite Hw. by eexists. }
  assert (∃ r, default merge_max_frequency (merge_strategies !! s) (e :: l)
               = Ok r) as [r ->]; [|by eexists].
  destruct Hs as [-> | [-> | [Hs Hf]]].
  - by rewrite merge_strategies_sum.
  - by rewrite merge_strategies_avg.
  - destruct (strategy_not_weighted s Hs) as [-> | [-> | ->]]; [|done..].
    cbn. pose proof (max_by_elem get_f e l) as Hin.
    destruct (Hword _ Hin) as [word Hw].
    assert (is_Some (ent_f (max_by get_f e l))) as [frequency Hfr].
    { rewrite Forall_forall in Hf. apply Hf.
      apply (members_incl k). by rewrite Hmem. }
    unfold item_w, item_f. rewrite Hw, Hfr. by eexists.
Qed.

(** X9: under the sum and the avg strategy a merge raises no exception,
    whatever keys the entries lack; under max, and under any unknown
    strategy name, it raises none when every entry has a frequency. *)
Theorem rank_never_raises `{Runtime} (all_entries : list Entry) (s : string)
    (min_frequency : Z) :
  s = "sum" ∨ s = "avg"
  ∨ (s ≠ "weighted" ∧ Forall (λ e, is_Some (ent_f e)) all_entries) →
  ∃ merged_entries, rank all_entries s min_frequency = Ok merged_entries.
Proof. apply rank_total. Qed.

Lemma rank_never_raises_witness :
  ∃ merged_entries,
    rank [{| ent_w := Some (lit "a"); ent_f := None |};
          {| ent_w := Some (lit "A"); ent_f := None |}] "avg" 1
    = Ok merged_entries.
Proof.
  apply (rank_never_raises
           [{| ent_w := Some (lit "a"); ent_f := None |};
            {| ent_w := Some (lit "A"); ent_f := None |}] "avg" 1).
  right. by left.
Defined.

(** ** The order of the stores under the sum strategy *)

Lemma sum_f_perm l l' : l ≡ₚ l' → sum_f l = sum_f l'.
Proof.
  induction 1 as [|x l l' _ IH|x y l|l l' l'' _ IH1 _ IH2]; [done| | |].
  - by rewrite !sum_f_cons, IH.
  - rewrite !sum_f_cons. lia.
  - by rewrite IH1.
Qed.

Lemma sum_kept_perm m l l' : l ≡ₚ l' → sum_kept m l = sum_kept m l'.
Proof.
  intros Hperm. unfold sum_kept. rewrite (sum_f_perm l l' Hperm).
  destruct l as [|x l], l' as [|x' l']; try done.
  - by apply Permutation_nil_cons in Hperm.
  - symmetry in Hperm. by apply Permutation_nil_cons in Hperm.
Qed.

Section StoreOrder.
Context {R : Runtime}.

Lemma keys_of_perm es es' : es ≡ₚ es' → keys_of es ≡ₚ keys_of es'.
Proof.
  intros Hperm. apply NoDup_Permutation; [apply keys_of_NoDup..|].
  intros k. split.
  - intros (e & He & Hk)%keys_of_sound.
    apply (keys_of_complete es' e); [by rewrite <- Hperm|done].
  - intros (e & He & Hk)%keys_of_sound.
    apply (keys_of_complete es e); [by rewrite Hperm|done].
Qed.

Lemma resolve_sum_kept m g out :
  g ≠ [] → (∀ e, e ∈ g → is_Some (ent_w e)) →
  resolve merge_sum_frequency m g = Ok out →
  get_f <$> out = sum_kept m g.
Proof.
  intros Hg Hw. unfold resolve.
  destruct g as [|e [|e' l]]; [done| |].
  - cbn [length]. rewrite decide_False by lia. cbn [mbind result_bind].
    intros [= <-]. unfold sum_kept.
    rewrite sum_f_cons. change (sum_f []) with 0. rewrite Z.add_0_r.
    destruct (Hw e ltac:(left)) as [word Hword].
    destruct e as [w fr]. cbn in Hword. subst w. cbn.
    case_bool_decide.
    + by rewrite decide_True.
    + by rewrite decide_False.
  - rewrite decide_True by (cbn; lia). unfold merge_sum_frequency.
    destruct (Hw e ltac:(left)) as [word Hword].
    unfold item_w. rewrite Hword. cbn [mbind result_bind].
    intros [= <-]. unfold sum_kept.
    generalize (sum_f (e :: e' :: l)). intros total. cbn.
    case_bool_decide.
    + by rewrite decide_True.
    + by rewrite decide_False.
Qed.

Lemma resolved_sum_kept m es ks outs :
  Forall (λ k, k ∈ keys_of es) ks →
  Forall2 (λ k out, resolve merge_sum_frequency m (members k es) = Ok out)
          ks outs →
  get_f <$> concat outs = ks ≫= (λ k, sum_kept m (members k es)).
Proof.
  intros Hks Hres. induction Hres as [|k out ks outs Hout _ IH]; [done|].
  apply Forall_cons in Hks as [Hk Hks]. cbn.
  rewrite fmap_app, (IH Hks). f_equal.
  apply resolve_sum_kept; [by apply members_nonempty| |done].
  intros e He. apply members_key in He. by eapply group_key_has_word.
Qed.

Lemma rank_sum_frequencies es m out :
  rank es "sum" m = Ok out →
  StronglySorted (λ a b, b ≤ a) (get_f <$> out)
  ∧ get_f <$> out ≡ₚ keys_of es ≫= (λ k, sum_kept m (members k es)).
Proof.
  intros Hrank. split.
  { apply rank_sorted_min in Hrank as [Hsorted _].
    by apply (StronglySorted_fmap _ by_frequency). }
  revert Hrank. rewrite rank_spec, merge_strategies_sum. cbn [default].
  destruct (for_each _ _) as [merged|] eqn:Hmerged; [|done].
  cbn [mbind result_bind]. intros [= <-].
  rewrite sort_desc_perm.
  apply for_each_Forall2 in Hmerged.
  rewrite (resolved_sum_kept m es (keys_of es) merged); [done| |done].
  by apply Forall_forall.
Qed.

(** X10: under the sum strategy the frequencies a merge ranks do not
    depend on the order of the stores, nor on the order of the entries in
    them: two runs on the same entries in different orders rank the same
    list of frequencies (the words can differ in their casing). *)
Theorem sum_order_independent (all_entries all_entries' : list Entry)
    (min_frequency : Z) (merged merged' : list Entry) :
  all_entries ≡ₚ all_entries' →
  rank all_entries "sum" min_frequency = Ok merged →
  rank all_entries' "sum" min_frequency = Ok merged' →
  get_f <$> merged = get_f <$> merged'.
Proof.
  intros Hperm [Hsorted Hfreq]%rank_sum_frequencies
               [Hsorted' Hfreq']%rank_sum_frequencies.
  apply (StronglySorted_unique_strong (λ a b, b ≤ a));
    [intros; lia|done..|].
  rewrite Hfreq, Hfreq', (keys_of_perm _ _ Hperm).
  assert (∀ k, sum_kept min_frequency (members k all_entries)
               = sum_kept min_frequency (members k all_entries')) as Hk.
  { intros k. apply sum_kept_perm. unfold members. by rewrite Hperm. }
  generalize (keys_of all_entries'). intros ks.
  induction ks as [|k ks IH]; [done|]. cbn. by rewrite Hk, IH.
Qed.
End StoreOrder.

Lemma sum_order_independent_witness :
  get_f <$> [entry (lit "Hello") 15; entry (lit "World") 3]
  = get_f <$> [entry (lit "hello") 15; entry (lit "World") 3].
Proof.
  apply (sum_order_independent
           ([entry (lit "Hello") 10; entry (lit "World") 3]
            ++ [entry (lit "hello") 5])
           ([entry (lit "hello") 5]
            ++ [entry (lit "Hello") 10; entry (lit "World") 3]) 1).
  - apply Permutation_app_comm.
  - vm_compute. reflexivity.
  - vm_compute. reflexivity.
Defined.

(** ** The words and the tables of the extractor *)

Section Tables.
Context {R : Runtime}.
Import ExtractNgrams.

(** X11: the words [extract_words] gives for a line are made of the
    letters a-z only and have at least two letters: digits, punctuation,
    one-letter words and the letters outside a-z that are left after the
    accent table do not reach the tables. *)
Theorem extract_words_letters (text : list N) :
  Forall (λ w, (1 < length w)%nat ∧ Forall (λ c, is_az c = true) w)
         (extract_words text).
Proof.
  unfold extract_words. apply Forall_forall.
  intros w [Hlen Hw]%list_elem_of_filter. split; [done|].
  apply list_elem_of_fmap in Hw as (w0 & -> & _).
  unfold normalize_word. apply Forall_forall.
  by intros c [Hc _]%list_elem_of_filter.
Qed.


Lemma bump_ok (k : list N) m :
  m = ∅ ∨ counts_ok 1 m → counts_ok 1 (bump k m).
Proof.
  intros Hm. split; [apply insert_non_empty|]. unfold bump.
  apply map_Forall_insert_2.
  - destruct Hm as [-> | [_ Hm]]; [rewrite lookup_empty; cbn; lia|].
    destruct (m !! k) as [c|] eqn:Hc; cbn; [|lia].
    destruct (Hm k c Hc). lia.
  - destruct Hm as [-> | [_ Hm]]; [apply map_Forall_empty|done].
Qed.

Lemma bump2_ok (k1 k2 : list N) t :
  bigrams_ok 1 t → bigrams_ok 1 (bump2 k1 k2 t).
Proof.
  intros Ht. apply map_Forall_insert_2; [|done]. apply bump_ok.
  destruct (t !! k1) as [m|] eqn:Hm; cbn; [right; by apply (Ht k1)|by left].
Qed.

Lemma bump3_ok (k1 k2 k3 : list N) t :
  trigrams_ok 1 t → trigrams_ok 1 (bump3 k1 k2 k3 t).
Proof.
  intros Ht. apply map_Forall_insert_2; [|done].
  split; [apply insert_non_empty|]. apply bump2_ok.
  destruct (t !! k1) as [m|] eqn:Hm; cbn;
    [by destruct (Ht k1 m Hm)|apply map_Forall_empty].
Qed.

Lemma count_lines_ok lines tables :
  bigrams_ok 1 tables.1 → trigrams_ok 1 tables.2 →
  bigrams_ok 1 (foldl count_line tables lines).1
  ∧ trigrams_ok 1 (foldl count_line tables lines).2.
Proof.
  revert tables. induction lines as [|line lines IH]; intros tables H2 H3;
    [done|].
  cbn [foldl]. apply IH; unfold count_line; cbn [fst snd].
  - generalize (seq 0 (length (extract_words line) - 1)). intros idxs.
    revert H2. generalize (tables.1).
    induction idxs as [|i idxs IHi]; intros t Ht; [done|]. cbn [foldl].
    apply IHi. unfold bigram_step.
    destruct (extract_words line !! i),
             (extract_words line !! (i + 1)%nat); try done.
    destruct (_ && _); [by apply bump2_ok|done].
  - generalize (seq 0 (length (extract_words line) - 2)). intros idxs.
    revert H3. generalize (tables.2).
    induction idxs as [|i idxs IHi]; intros t Ht; [done|]. cbn [foldl].
    apply IHi. unfold trigram_step.
    destruct (extract_words line !! i), (extract_words line !! (i + 1)%nat),
             (extract_words line !! (i + 2)%nat); try done.
    destruct (_ && _ && _); [by apply bump3_ok|done].
Qed.

Lemma filter_counts_Some k m m' :
  filter_counts k m = Some m' ↔
  m' = filter (λ kv, k ≤ kv.2) m ∧ m' ≠ ∅.
Proof.
  unfold filter_counts. destruct (decide _) as [Hempty|Hne].
  - split; [done|]. intros [-> ?]. done.
  - split; [by intros [= <-]|]. by intros [-> _].
Qed.

Lemma filter_bigrams_count k t (w1 w2 : list N) c :
  bigram_count (filter_bigrams k t) w1 w2 = Some c
  ↔ bigram_count t w1 w2 = Some c ∧ k ≤ c.
Proof.
  unfold bigram_count, filter_bigrams. rewrite lookup_omap.
  destruct (t !! w1) as [m|]; cbn; [|split; [done|by intros [? _]]].
  destruct (filter_counts k m) as [m'|] eqn:Hf; cbn.
  - apply filter_counts_Some in Hf as [-> _].
    by rewrite map_lookup_filter_Some.
  - split; [done|]. intros [Hc Hk].
    assert (filter (λ kv, k ≤ kv.2) m !! w2 = Some c) as Hin
      by (by apply map_lookup_filter_Some).
    unfold filter_counts in Hf. destruct (decide _) as [Hempty|]; [|done].
    rewrite Hempty, lookup_empty in Hin. done.
Qed.

Lemma filter_trigrams_count k t (w1 w2 w3 : list N) c :
  trigram_count (filter_trigrams k t) w1 w2 w3 = Some c
  ↔ trigram_count t w1 w2 w3 = Some c ∧ k ≤ c.
Proof.
  unfold trigram_count, filter_trigrams. rewrite lookup_omap.
  destruct (t !! w1) as [m2|]; cbn; [|split; [done|by intros [? _]]].
  pose proof (filter_bigrams_count k m2 w2 w3 c) as Hcount.
  unfold bigram_count in Hcount.
  destruct (decide _) as [Hempty|]; cbn; [|done].
  rewrite Hempty, lookup_empty in Hcount. cbn in Hcount.
  split; [done|]. intros H'. by apply Hcount in H'.
Qed.

Lemma filter_bigrams_ok k t : bigrams_ok 1 t → bigrams_ok k (filter_bigrams k t).
Proof.
  intros Ht w1 m'. unfold filter_bigrams. rewrite lookup_omap.
  destruct (t !! w1) as [m|] eqn:Hm; cbn; [|done].
  intros [-> Hne]%filter_counts_Some. split; [done|].
  intros w2 c [Hc Hk]%map_lookup_filter_Some. cbn in Hk.
  destruct (Ht w1 m Hm) as [_ Hm1]. destruct (Hm1 w2 c Hc). lia.
Qed.

Lemma filter_trigrams_ok k t :
  trigrams_ok 1 t → trigrams_ok k (filter_trigrams k t).
Proof.
  intros Ht w1 m'. unfold filter_trigrams. rewrite lookup_omap.
  destruct (t !! w1) as [m|] eqn:Hm; cbn; [|done].
  destruct (decide _); [done|]. intros [= <-]. split; [done|].
  apply filter_bigrams_ok. by destruct (Ht w1 m Hm).
Qed.

Lemma bigrams_ok_weaken k t : k ≤ 1 → bigrams_ok 1 t → bigrams_ok k t.
Proof.
  intros Hk Ht w1 m Hm. destruct (Ht w1 m Hm) as [Hne Hc].
  split; [done|]. intros w2 c Hw2. destruct (Hc w2 c Hw2). lia.
Qed.

Lemma extract_ngrams_ok lines min_freq :
  bigrams_ok min_freq (extract_ngrams lines min_freq).1
  ∧ trigrams_ok min_freq (extract_ngrams lines min_freq).2.
Proof.
  destruct (count_lines_ok lines (∅, ∅)) as [H2 H3];
    [apply map_Forall_empty..|].
  unfold extract_ngrams. destruct (decide (1 < min_freq)); cbn [fst snd].
  - split; [by apply filter_bigrams_ok|by apply filter_trigrams_ok].
  - split; [apply bigrams_ok_weaken; [lia|done]|].
    intros w1 m Hm. destruct (H3 w1 m Hm) as [Hne Hm2].
    split; [done|]. apply bigrams_ok_weaken; [lia|done].
Qed.

(** X12: in the tables of an extraction no key holds an empty table, and
    every count is at least 1 and at least [min_freq]. *)
Theorem extract_ngrams_tables_pruned (lines : list (list N)) (min_freq : Z) :
  bigrams_ok min_freq (extract_ngrams lines min_freq).1
  ∧ trigrams_ok min_freq (extract_ngrams lines min_freq).2.
Proof. apply extract_ngrams_ok. Qed.

(** X13: an extraction with a threshold holds exactly the pairs and the
    triples that the extraction without filtering ([min_freq = 1]) counts
    at least [min_freq] times, each with the same count. *)
Theorem extract_ngrams_threshold (lines : list (list N)) (min_freq : Z)
    (word1 word2 word3 : list N) (c : Z) :
  (bigram_count (extract_ngrams lines min_freq).1 word1 word2 = Some c
   ↔ bigram_count (extract_ngrams lines 1).1 word1 word2 = Some c
     ∧ min_freq ≤ c)
  ∧ (trigram_count (extract_ngrams lines min_freq).2 word1 word2 word3
     = Some c
     ↔ trigram_count (extract_ngrams lines 1).2 word1 word2 word3 = Some c
       ∧ min_freq ≤ c).
Proof.
  destruct (extract_ngrams_ok lines 1) as [H2 H3]. revert H2 H3.
  unfold extract_ngrams. rewrite (decide_False (P := 1 < 1)) by lia.
  destruct (decide (1 < min_freq)); cbn [fst snd]; intros H2 H3.
  - split; [apply filter_bigrams_count|apply filter_trigrams_count].
  - split; (split; [|by intros [? _]]); intros Hc; (split; [done|]).
    + unfold bigram_count in Hc.
      destruct (_ !! word1) as [m|] eqn:Hm; [|done]. cbn in Hc.
      destruct (H2 word1 m Hm) as [_ Hm1]. destruct (Hm1 word2 c Hc). lia.
    + unfold trigram_count in Hc.
      destruct (_ !! word1) as [m2|] eqn:Hm2; [|done]. cbn in Hc.
      destruct (m2 !! word2) as [m|] eqn:Hm; [|done]. cbn in Hc.
      destruct (H3 word1 m2 Hm2) as [_ Hb].
      destruct (Hb word2 m Hm) as [_ Hm1]. destruct (Hm1 word3 c Hc). lia.
Qed.
End Tables.

(** ** The order of the lines and the number of observations *)

Lemma bump_at_comm {V} (inc1 inc2 : V → V) (e : V) (k1 k2 : list N)
    (m : gmap (list N) V) :
  (∀ v, inc1 (inc2 v) = inc2 (inc1 v)) →
  bump_at inc1 e k1 (bump_at inc2 e k2 m)
  = bump_at inc2 e k2 (bump_at inc1 e k1 m).
Proof.
  intros Hcomm. unfold bump_at. destruct (decide (k1 = k2)) as [->|Hne].
  - rewrite !lookup_insert_eq, !insert_insert_eq. cbn. by rewrite Hcomm.
  - rewrite !lookup_insert_ne by done. by apply insert_insert_ne.
Qed.


Lemma foldl_swap {A B C} (f : A → B → A) (g : A → C → A) xs ys a :
  (∀ a x y, f (g a y) x = g (f a x) y) →
  foldl f (foldl g a ys) xs = foldl g (foldl f a xs) ys.
Proof.
  intros Hfg.
  assert (∀ xs a y, foldl f (g a y) xs = g (foldl f a xs) y) as Hone.
  { clear xs a. intros xs. induction xs as [|x xs IH]; intros a y; [done|].
    cbn. by rewrite Hfg, IH. }
  revert a. induction ys as [|y ys IH]; intros a; [done|]. cbn.
  by rewrite IH, Hone.
Qed.

Lemma foldl_perm {A B} (f : A → B → A) l l' a :
  (∀ a x y, f (f a x) y = f (f a y) x) →
  l ≡ₚ l' → foldl f a l = foldl f a l'.
Proof.
  intros Hf Hperm. revert a.
  induction Hperm as [|x l l' _ IH|x y l|l l' l'' _ IH1 _ IH2]; intros a;
    cbn; [done|apply IH|by rewrite Hf|by rewrite IH1].
Qed.

Section Observations.
Context {R : Runtime}.
Import ExtractNgrams.

Lemma bump_comm (k k' : list N) m : bump k (bump k' m) = bump k' (bump k m).
Proof. apply (bump_at_comm (λ x, x + 1) (λ x, x + 1) 0). intros; lia. Qed.

Lemma bump2_comm (k1 k2 k1' k2' : list N) t :
  bump2 k1 k2 (bump2 k1' k2' t) = bump2 k1' k2' (bump2 k1 k2 t).
Proof. apply (bump_at_comm (bump k2) (bump k2') ∅). intros; apply bump_comm. Qed.

Lemma bump3_comm (k1 k2 k3 k1' k2' k3' : list N) t :
  bump3 k1 k2 k3 (bump3 k1' k2' k3' t) = bump3 k1' k2' k3' (bump3 k1 k2 k3 t).
Proof.
  apply (bump_at_comm (bump2 k2 k3) (bump2 k2' k3') ∅).
  intros; apply bump2_comm.
Qed.

Lemma bigram_step_comm words words' t i j :
  bigram_step words (bigram_step words' t j) i
  = bigram_step words' (bigram_step words t i) j.
Proof.
  unfold bigram_step.
  destruct (words !! i), (words !! (i + 1)%nat), (words' !! j),
           (words' !! (j + 1)%nat); try done.
  do 2 destruct (_ && _); try done. apply bump2_comm.
Qed.

Lemma trigram_step_comm words words' t i j :
  trigram_step words (trigram_step words' t j) i
  = trigram_step words' (trigram_step words t i) j.
Proof.
  unfold trigram_step.
  destruct (words !! i), (words !! (i + 1)%nat), (words !! (i + 2)%nat),
           (words' !! j), (words' !! (j + 1)%nat), (words' !! (j + 2)%nat);
    try done.
  do 2 destruct (_ && _ && _); try done. apply bump3_comm.
Qed.

Lemma count_line_comm tables line line' :
  count_line (count_line tables line) line'
  = count_line (count_line tables line') line.
Proof.
  unfold count_line. cbn [fst snd]. f_equal.
  - apply foldl_swap. intros. apply bigram_step_comm.
  - apply foldl_swap. intros. apply trigram_step_comm.
Qed.

(** X14: the tables do not depend on the order of the lines: two corpora
    with the same lines in any order give the same bigram and trigram
    tables, for every [min_freq]. *)
Theorem extract_ngrams_line_order (lines lines' : list (list N))
    (min_freq : Z) :
  lines ≡ₚ lines' →
  extract_ngrams lines min_freq = extract_ngrams lines' min_freq.
Proof.
  intros Hperm. unfold extract_ngrams.
  by rewrite (foldl_perm count_line lines lines' (∅, ∅) count_line_comm Hperm).
Qed.







End Observations.

Lemma extract_ngrams_line_order_witness :
  ExtractNgrams.extract_ngrams [lit "the cat sat"; lit "a dog ran off"] 1
  = ExtractNgrams.extract_ngrams [lit "a dog ran off"; lit "the cat sat"] 1.
Proof.
  apply (extract_ngrams_line_order
           [lit "the cat sat"; lit "a dog ran off"]
           [lit "a dog ran off"; lit "the cat sat"] 1).
  apply Permutation_swap.
Defined.


(** ** The converters *)

Lemma runs_nonempty sep cur s w : w ∈ runs sep cur s → w ≠ [].
Proof.
  revert cur. induction s as [|c s IH]; intros cur; cbn.
  - destruct cur as [|c0 cur]; cbn; [by intros ?%elem_of_nil|].
    intros ->%list_elem_of_singleton Hnil.
    apply (f_equal length) in Hnil. rewrite length_app in Hnil.
    cbn in Hnil. lia.
  - destruct (sep c); [|apply IH].
    destruct cur as [|c0 cur]; cbn; [apply IH|].
    intros [->|Hw]%elem_of_cons; [|by eapply IH].
    intros Hnil. apply (f_equal length) in Hnil. rewrite length_app in Hnil.
    cbn in Hnil. lia.
Qed.

Lemma join_nonempty sep (p : list N) ps : p ≠ [] → join sep (p :: ps) ≠ [].
Proof. destruct p; [done|]. by destruct ps. Qed.

Section Converters.
Context {R : Runtime}.
Import DownloadCorpora.

Lemma wikipedia_line_entry line e :
  e ∈ wikipedia_line line → ∃ word frequency, e = entry word frequency.
Proof.
  unfold wikipedia_line. destruct (truthy _); [|by intros ?%elem_of_nil].
  destruct (if decide _ then _ else _) as [|field0 [|field1 rest]];
    [by intros ?%elem_of_nil..|].
  destruct (int _); [|by intros ?%elem_of_nil].
  intros ->%list_elem_of_singleton. eauto.
Qed.

Lemma convert_wikipedia_take (lines : list (list N)) :
  ∃ rows, ∀ limit',
    convert_wikipedia_to_json lines limit'
    = take (Z.to_nat limit') (rows ≫= wikipedia_line).
Proof.
  unfold convert_wikipedia_to_json.
  destruct lines as [|first_line rest].
  { exists []. intros. cbn. by rewrite take_nil. }
  destruct (startswith _ _); [exists rest|exists (first_line :: rest)];
    intros limit'; rewrite wikipedia_loop_take; cbn [length app];
    by rewrite Nat.sub_0_r.
Qed.

(** X16: the limit of the Wikipedia converter truncates and does nothing
    else: it never gives more than [limit] entries, and the entries for
    a limit are the first entries for any larger limit, in the same order. *)
Theorem convert_wikipedia_limit (lines : list (list N)) (limit limit' : Z) :
  limit ≤ limit' →
  convert_wikipedia_to_json lines limit
  = take (Z.to_nat limit) (convert_wikipedia_to_json lines limit')
  ∧ (length (convert_wikipedia_to_json lines limit) ≤ Z.to_nat limit)%nat.
Proof.
  intros Hlimit. destruct (convert_wikipedia_take lines) as [rows Hrows].
  rewrite !Hrows, take_take, length_take. split; [|lia].
  f_equal. lia.
Qed.

Lemma opensubtitles_line_entry line e :
  e ∈ opensubtitles_line line →
  ∃ word frequency, e = entry word frequency ∧ word ≠ [].
Proof.
  unfold opensubtitles_line. destruct (truthy _); [|by intros ?%elem_of_nil].
  destruct (decide _) as [|Hlen]; [by intros ?%elem_of_nil|].
  destruct (int _) as [frequency|]; [|by intros ?%elem_of_nil].
  intros ->%list_elem_of_singleton. eexists _, _. split; [done|].
  unfold split in *. unfold init.
  destruct (runs isspace [] (strip line)) as [|p [|p' ps]] eqn:Hruns;
    [cbn in Hlen; lia..|].
  cbn [length take]. replace (S (S (length ps)) - 1)%nat
    with (S (length ps)) by lia.
  cbn [take]. apply join_nonempty.
  apply (runs_nonempty isspace [] (strip line)). rewrite Hruns. by left.
Qed.

(** X17: every entry the converters give has a word and an integer
    frequency, and a word of the OpenSubtitles converter is never empty;
    so the merge of converted lists raises no exception under the max, sum
    and avg strategies, nor under an unknown strategy name. *)
Theorem converted_lists_merge
    (subtitle_lines wikipedia_lines : list (list N)) (limit : Z) :
  Forall (λ e, ∃ word frequency, e = entry word frequency ∧ word ≠ [])
         (convert_opensubtitles_to_json subtitle_lines)
  ∧ Forall (λ e, ∃ word frequency, e = entry word frequency)
           (convert_wikipedia_to_json wikipedia_lines limit)
  ∧ ∀ (s : string) min_frequency,
      s ≠ "weighted" →
      ∃ merged_entries,
        rank (convert_opensubtitles_to_json subtitle_lines
              ++ convert_wikipedia_to_json wikipedia_lines limit)
             s min_frequency
        = Ok merged_entries.
Proof.
  assert (Forall (λ e, ∃ word frequency, e = entry word frequency ∧ word ≠ [])
                 (convert_opensubtitles_to_json subtitle_lines)) as H1.
  { apply Forall_forall. intros e.
    unfold convert_opensubtitles_to_json. rewrite list_elem_of_bind.
    intros (line & He & _). by eapply opensubtitles_line_entry. }
  assert (Forall (λ e, ∃ word frequency, e = entry word frequency)
                 (convert_wikipedia_to_json wikipedia_lines limit)) as H2.
  { destruct (convert_wikipedia_take wikipedia_lines) as [rows ->].
    apply Forall_take, Forall_forall. intros e.
    rewrite list_elem_of_bind. intros (line & He & _).
    by eapply wikipedia_line_entry. }
  split_and!; [done..|]. intros s min_frequency Hs. apply rank_total.
  do 2 right. split; [done|]. apply Forall_app. split.
  - eapply Forall_impl; [exact H1|]. by intros e (? & ? & -> & _).
  - eapply Forall_impl; [exact H2|]. by intros e (? & ? & ->).
Qed.
End Converters.

Lemma convert_wikipedia_limit_witness :
  DownloadCorpora.convert_wikipedia_to_json
    [lit "word,count"; lit "the,120"; lit "of,90"; lit "and,70"] 2
  = take (Z.to_nat 2)
         (DownloadCorpora.convert_wikipedia_to_json
            [lit "word,count"; lit "the,120"; lit "of,90"; lit "and,70"]
            50000).
Proof.
  apply (convert_wikipedia_limit
           [lit "word,count"; lit "the,120"; lit "of,90"; lit "and,70"]
           2 50000).
  lia.
Defined.

Lemma converted_lists_merge_witness :
  ∃ merged_entries,
    rank (DownloadCorpora.convert_opensubtitles_to_json
            [lit "the 120"; lit "The 7"]
          ++ DownloadCorpora.convert_wikipedia_to_json [lit "the,90"] 50000)
         "max" 1
    = Ok merged_entries.
Proof.
  apply (converted_lists_merge [lit "the 120"; lit "The 7"] [lit "the,90"]
                               50000).
  discriminate.
Defined.

(** ** Normalised words are fixed *)

Lemma lstrip_by_none p (s : list N) :
  Forall (λ c, p c = false) s → lstrip_by p s = s.
Proof. destruct 1 as [|c s Hc _]; [done|]. cbn. by rewrite Hc. Qed.

Lemma strip_by_none p (s : list N) :
  Forall (λ c, p c = false) s → strip_by p s = s.
Proof.
  intros Hs. unfold strip_by. rewrite (lstrip_by_none p s Hs).
  rewrite lstrip_by_none; [apply rev_involutive|].
  apply Forall_forall. intros c Hc. rewrite Forall_forall in Hs.
  apply Hs. by rewrite list_elem_of_In, in_rev, <- list_elem_of_In.
Qed.

Lemma replace_letters old new (s : list N) :
  ExtractNgrams.is_az old = false →
  Forall (λ c, ExtractNgrams.is_az c = true) s → replace old new s = s.
Proof.
  intros Hold Hs. unfold replace. induction Hs as [|c s Hc _ IH]; [done|].
  cbn. rewrite IH. destruct (N.eqb_spec c old) as [->|]; [congruence|done].
Qed.

(** X18: for a runtime whose [lower] leaves strings of the letters a-z
    alone and for which none of these letters is whitespace, as in Python,
    the normaliser of the extractor is idempotent: a normalised word is
    its own normal form. *)
Theorem normalize_word_idempotent (R : Runtime) (word : list N) :
  (∀ w, Forall (λ c, ExtractNgrams.is_az c = true) w → lower w = w) →
  (∀ c, ExtractNgrams.is_az c = true → isspace c = false) →
  ExtractNgrams.normalize_word (ExtractNgrams.normalize_word word)
  = ExtractNgrams.normalize_word word.
Proof.
  intros Hlower Hspace.
  assert (Forall (λ c, ExtractNgrams.is_az c = true)
                 (ExtractNgrams.normalize_word word)) as Haz.
  { unfold ExtractNgrams.normalize_word. apply Forall_forall.
    by intros c [Hc _]%list_elem_of_filter. }
  revert Haz. generalize (ExtractNgrams.normalize_word word). intros w Haz.
  unfold ExtractNgrams.normalize_word. rewrite (Hlower w Haz).
  unfold strip. rewrite strip_by_none
    by (eapply Forall_impl; [exact Haz|exact Hspace]).
  repeat rewrite (replace_letters _ _ w) by done.
  induction Haz as [|c w Hc _ IH]; [done|].
  rewrite filter_cons, decide_True by done. by rewrite IH.
Qed.

Lemma latin1_lower_letter (c : N) :
  ExtractNgrams.is_az c = true → latin1_lower_char c = c.
Proof.
  unfold ExtractNgrams.is_az, latin1_lower_char, in_range.
  intros [H1%N.leb_le H2%N.leb_le]%andb_true_iff.
  repeat match goal with
         | |- context [(?a <=? ?b)%N] => destruct (N.leb_spec a b)
         | |- context [(?a =? ?b)%N] => destruct (N.eqb_spec a b)
         end; cbn; try done; lia.
Qed.

Lemma latin1_letter_not_space (c : N) :
  ExtractNgrams.is_az c = true → latin1_isspace c = false.
Proof.
  unfold ExtractNgrams.is_az, latin1_isspace, in_range.
  intros [H1%N.leb_le H2%N.leb_le]%andb_true_iff.
  repeat match goal with
         | |- context [(?a <=? ?b)%N] => destruct (N.leb_spec a b)
         | |- context [(?a =? ?b)%N] => destruct (N.eqb_spec a b)
         end; cbn; try done; lia.
Qed.

Lemma normalize_word_idempotent_witness :
  ExtractNgrams.normalize_word (ExtractNgrams.normalize_word (lit " Caf3e's "))
  = ExtractNgrams.normalize_word (lit " Caf3e's ").
Proof.
  apply (normalize_word_idempotent latin1 (lit " Caf3e's ")).
  - intros w Hw. cbn. induction Hw as [|c w Hc _ IH]; [done|].
    cbn. by rewrite IH, latin1_lower_letter.
  - apply latin1_letter_not_space.
Defined.

(** ** The entries the summary reads *)

Lemma summary_total (merged : list Entry) :
  Forall (λ e, is_Some (ent_w e) ∧ is_Some (ent_f e)) merged →
  ∃ seen, for_each (λ e, _ ← item_w e; item_f e) (take 10 merged) = Ok seen.
Proof.
  intros Hm. apply for_each_total. intros e He.
  apply elem_of_take in He as (i & He%list_elem_of_lookup_2 & _).
  rewrite Forall_forall in Hm. destruct (Hm e He) as [[w Hw] [f Hf]].
  unfold item_w, item_f. rewrite Hw, Hf. by eexists.
Qed.

(** X19: with [min_freq] of at least 1 every entry of the ranked list
    has both a word and a frequency, whatever the stores held: the lookups
    [entry['w']] and [entry['f']] of the summary of the top ten find their
    keys and raise no [KeyError]. *)
Theorem rank_entries_complete `{Runtime} (all_entries : list Entry)
    (strategy : string) (min_frequency : Z) (merged_entries : list Entry) :
  1 ≤ min_frequency →
  rank all_entries strategy min_frequency = Ok merged_entries →
  Forall (λ e, is_Some (ent_w e) ∧ is_Some (ent_f e)) merged_entries
  ∧ ∃ seen,
      for_each (λ e, _ ← item_w e; item_f e) (take 10 merged_entries)
      = Ok seen.
Proof.
  intros Hm Hrank.
  assert (Forall (λ e, is_Some (ent_w e) ∧ is_Some (ent_f e))
                 merged_entries) as Hall.
  { destruct (rank_sorted_min _ _ _ _ Hrank) as [_ Hmin].
    destruct (rank_keys _ _ _ _ Hrank) as [_ Hkeys].
    rewrite Forall_forall in Hmin, Hkeys. apply Forall_forall. intros x Hx.
    split.
    - destruct (Hkeys x Hx) as (_ & _ & _ & [k Hk]).
      by eapply group_key_has_word.
    - specialize (Hmin x Hx). unfold get_f in Hmin.
      destruct (ent_f x); [done|]. cbn in Hmin. lia. }
  split; [done|]. by apply summary_total.
Qed.

Lemma rank_entries_complete_witness :
  Forall (λ e, is_Some (ent_w e) ∧ is_Some (ent_f e))
         [entry (lit "b") 7; entry (lit "a") 4]
  ∧ ∃ seen,
      for_each (λ e, _ ← item_w e; item_f e)
               (take 10 [entry (lit "b") 7; entry (lit "a") 4])
      = Ok seen.
Proof.
  apply (rank_entries_complete
           [{| ent_w := Some (lit "A"); ent_f := None |}; entry (lit "a") 4;
            {| ent_w := None; ent_f := Some 9 |}; entry (lit "b") 7;
            {| ent_w := Some (lit "c"); ent_f := None |}]
           "max" 1).
  - lia.
  - vm_compute. reflexivity.
Defined.
